(** * SoftPT: the rendering core of the sphere path tracer

    A shallow embedding of [SoftPT.cpp]: the [Vector3] algebra, the
    ray/sphere solver [Intersect], the hemisphere sampler
    ([RandomTangentFrame], [RandomVector]), the recursive integrator
    [TracePath] and the frame driver [Render].

    The C++ [float] is IEEE 754 binary32.  It is modelled by the
    Standard Library's [spec_float] at precision 24 and maximal exponent
    128, with round-to-nearest-even on every single operation (the
    behaviour of scalar SSE arithmetic, without contraction or excess
    precision).  NaN payloads are not distinguished. *)

From Stdlib Require Import ZArith List Bool Lia.
From Stdlib Require Import Floats.SpecFloat.
Import ListNotations.

(** ** binary32 *)

Definition prec : Z := 24.
Definition emax : Z := 128.

Definition float : Type := spec_float.

Declare Scope f32_scope.
Delimit Scope f32_scope with f32.
Bind Scope f32_scope with float.

Definition fadd (a b : float) : float := SFadd prec emax a b.
Definition fsub (a b : float) : float := SFsub prec emax a b.
Definition fmul (a b : float) : float := SFmul prec emax a b.
Definition fdiv (a b : float) : float := SFdiv prec emax a b.
Definition sqrtf (a : float) : float := SFsqrt prec emax a.

(** The four comparisons of C++; each one is false when an operand is NaN. *)
Definition flt (a b : float) : bool := SFltb a b.
Definition fgt (a b : float) : bool := SFltb b a.
Definition fle (a b : float) : bool := SFleb a b.
Definition fge (a b : float) : bool := SFleb b a.

Infix "+" := fadd : f32_scope.
Infix "-" := fsub : f32_scope.
Infix "*" := fmul : f32_scope.
Infix "/" := fdiv : f32_scope.
Infix "<?" := flt : f32_scope.
Infix ">?" := fgt : f32_scope.
Infix "<=?" := fle : f32_scope.
Infix ">=?" := fge : f32_scope.

(** The binary32 value nearest to [m * 2^e]; a literal such as [4.0f] or
    [0.25f] is written with its dyadic value, a decimal one such as
    [0.00001f] with the mantissa and exponent of its nearest binary32. *)
Definition lit (m e : Z) : float := binary_normalize prec emax m e false.

(** [(float) n] and [static_cast<float>(n)] for an [int] [n]. *)
Definition float_of_int (n : Z) : float := lit n 0.

(** [m * 2^e] is the binary32 nearest to the decimal [num / den]
    (for [e < 0]): twice the distance is at most one unit in the last
    place. *)
Definition nearest_decimal (num den m e : Z) : bool :=
  (2 * Z.abs (den * m - num * 2 ^ (- e)) <=? den)%Z
  && valid_binary prec emax (lit m e)
  && match lit m e with S754_finite _ m' e' => (Zpos m' =? Z.abs m)%Z && (e' =? e)%Z | _ => false end.

Definition f0 : float := lit 0 0.
Definition f1 : float := lit 1 0.
Definition f2 : float := lit 2 0.
Definition f4 : float := lit 4 0.
Definition fm1 : float := lit (-1) 0.

Definition kPi : float := lit 13176795 (-22).       (* 3.1415927f *)
Definition kEpsilon : float := lit 10995116 (-40).  (* 0.00001f *)

(** Platform constants of the Win32 build: <climits>, <cfloat>, <cstdlib>. *)
Definition INT_MAX : Z := 2147483647.
Definition FLT_MAX : float := lit 16777215 104.
Definition RAND_MAX : Z := 32767.

(** ** Vector3 *)

Record Vector3 : Type := mkVector3 { x : float; y : float; z : float }.

(** [explicit Vector3(float in)] *)
Definition Vector3_splat (v : float) : Vector3 := mkVector3 v v v.

Definition Dot (a rhs : Vector3) : float :=
  (x a * x rhs + y a * y rhs + z a * z rhs)%f32.

Definition Cross (a rhs : Vector3) : Vector3 :=
  mkVector3 (y a * z rhs - z a * y rhs)%f32
            (z a * x rhs - x a * z rhs)%f32
            (x a * y rhs - y a * x rhs)%f32.

Definition Length (a : Vector3) : float := sqrtf (Dot a a).

(** [operator-], [operator+], [operator*] between vectors *)
Definition vsub (a rhs : Vector3) : Vector3 :=
  mkVector3 (x a - x rhs)%f32 (y a - y rhs)%f32 (z a - z rhs)%f32.
Definition vadd (a rhs : Vector3) : Vector3 :=
  mkVector3 (x a + x rhs)%f32 (y a + y rhs)%f32 (z a + z rhs)%f32.
Definition vmul (a rhs : Vector3) : Vector3 :=
  mkVector3 (x a * x rhs)%f32 (y a * y rhs)%f32 (z a * z rhs)%f32.

(** [operator*(float)], [operator+(float)] *)
Definition vscale (a : Vector3) (rhs : float) : Vector3 :=
  mkVector3 (x a * rhs)%f32 (y a * rhs)%f32 (z a * rhs)%f32.
Definition vaddf (a : Vector3) (rhs : float) : Vector3 :=
  mkVector3 (x a + rhs)%f32 (y a + rhs)%f32 (z a + rhs)%f32.

Declare Scope vec_scope.
Delimit Scope vec_scope with vec.
Bind Scope vec_scope with Vector3.
Infix "+" := vadd : vec_scope.
Infix "-" := vsub : vec_scope.
Infix "*" := vmul : vec_scope.
Infix "*:" := vscale (at level 40, left associativity) : vec_scope.

Definition Normalize (a : Vector3) : Vector3 :=
  (a *: (f1 / Length a)%f32)%vec.

Definition Distance (a rhs : Vector3) : float := Length (a - rhs)%vec.

Definition IsEquivalent (a rhs : Vector3) (maxDelta : float) : bool :=
  let delta := (rhs - a)%vec in
  (Length delta <? maxDelta)%f32.

(** ** Scene primitives *)

Record Ray : Type := mkRay { origin : Vector3; direction : Vector3 }.

Record Material : Type := mkMaterial
  { albedo : Vector3; emissive : Vector3; roughness : float }.

(** [material] is a [const Material*] into a collection that is not
    touched after the scene is built; the sphere is modelled with the
    material it points to. *)
Record Sphere : Type := mkSphere
  { center : Vector3; radius : float; material : Material }.

Definition Lerp (val0 val1 : Vector3) (t : float) : Vector3 :=
  (val0 + (val1 - val0) *: t)%vec.

Definition Saturate (v : float) : float :=
  if (v <? f0)%f32 then f0 else if (v >? f1)%f32 then f1 else v.

Definition Max (a b : float) : float := if (a >? b)%f32 then a else b.

(** ** Intersection solver *)

(** [std::array<Vector3, 2>], read and written at index 0 or 1. *)
Definition array2 : Type := (Vector3 * Vector3)%type.

Definition aget (r : array2) (i : Z) : Vector3 :=
  if (i =? 0)%Z then fst r else snd r.
Definition aset (r : array2) (i : Z) (v : Vector3) : array2 :=
  if (i =? 0)%Z then (v, snd r) else (fst r, v).
(** [std::swap(result[0], result[1])] *)
Definition aswap (r : array2) : array2 := (snd r, fst r).

(** The point of the ray at parameter [t]. *)
Definition point_at (ray : Ray) (t : float) : Vector3 :=
  (origin ray + direction ray *: t)%vec.

(** Returns the number of intersections and the array it has filled. *)
Definition Intersect (ray : Ray) (sphere : Sphere) (result : array2) : Z * array2 :=
  let rayOriginToSphereCenter := (origin ray - center sphere)%vec in
  let a := Dot (direction ray) (direction ray) in
  let b := (f2 * Dot (direction ray) rayOriginToSphereCenter)%f32 in
  let c := (Dot rayOriginToSphereCenter rayOriginToSphereCenter
            - radius sphere * radius sphere)%f32 in
  let discriminant := (b * b - f4 * a * c)%f32 in
  if (discriminant <? f0)%f32 then (0%Z, result)
  else
    let numIntersections := 0%Z in
    let t0 := ((fm1 * b + sqrtf discriminant) / (f2 * a))%f32 in
    let '(numIntersections, result) :=
      if (t0 >=? f0)%f32
      then ((numIntersections + 1)%Z,
            aset result numIntersections (origin ray + direction ray *: t0)%vec)
      else (numIntersections, result) in
    if (discriminant >? kEpsilon)%f32 then
      let t1 := ((fm1 * b - sqrtf discriminant) / (f2 * a))%f32 in
      if (t1 >=? f0)%f32 then
        let result := aset result numIntersections (origin ray + direction ray *: t1)%vec in
        let numIntersections := (numIntersections + 1)%Z in
        if ((t0 >=? f0)%f32 && (t1 >=? f0)%f32) && (t1 <? t0)%f32
        then (numIntersections, aswap result)
        else (numIntersections, result)
      else (numIntersections, result)
    else (numIntersections, result).

(** The other copy of the program returns a [std::vector<Vector3>]. *)
Module Part000.

(** [std::swap(result[0], result[1])] on a vector; the source calls it
    with two elements present. *)
Definition swap01 (result : list Vector3) : list Vector3 :=
  match result with
  | p :: q :: rest => q :: p :: rest
  | _ => result
  end.

Definition Intersect (ray : Ray) (sphere : Sphere) : list Vector3 :=
  let rayOriginToSphereCenter := (origin ray - center sphere)%vec in
  let a := Dot (direction ray) (direction ray) in
  let b := (f2 * Dot (direction ray) rayOriginToSphereCenter)%f32 in
  let c := (Dot rayOriginToSphereCenter rayOriginToSphereCenter
            - radius sphere * radius sphere)%f32 in
  let discriminant := (b * b - f4 * a * c)%f32 in
  let result : list Vector3 := [] in
  if (discriminant <? f0)%f32 then result
  else
    let t0 := ((fm1 * b + sqrtf discriminant) / (f2 * a))%f32 in
    let result :=
      if (t0 >=? f0)%f32
      then result ++ [(origin ray + direction ray *: t0)%vec]
      else result in
    if (discriminant >? kEpsilon)%f32 then
      let t1 := ((fm1 * b - sqrtf discriminant) / (f2 * a))%f32 in
      if (t1 >=? f0)%f32 then
        let result := result ++ [(origin ray + direction ray *: t1)%vec] in
        if ((t0 >=? f0)%f32 && (t1 >=? f0)%f32) && (t1 <? t0)%f32
        then swap01 result
        else result
      else result
    else result.

End Part000.

(** The quantities of the quadratic [a t^2 + b t + c = 0], named as in
    [Intersect], for the statements below. *)
Definition quad_a (ray : Ray) : float := Dot (direction ray) (direction ray).
Definition quad_b (ray : Ray) (sphere : Sphere) : float :=
  (f2 * Dot (direction ray) (origin ray - center sphere)%vec)%f32.
Definition quad_c (ray : Ray) (sphere : Sphere) : float :=
  (Dot (origin ray - center sphere)%vec (origin ray - center sphere)%vec
   - radius sphere * radius sphere)%f32.
Definition discriminant (ray : Ray) (sphere : Sphere) : float :=
  (quad_b ray sphere * quad_b ray sphere - f4 * quad_a ray * quad_c ray sphere)%f32.
Definition root0 (ray : Ray) (sphere : Sphere) : float :=
  ((fm1 * quad_b ray sphere + sqrtf (discriminant ray sphere)) / (f2 * quad_a ray))%f32.
Definition root1 (ray : Ray) (sphere : Sphere) : float :=
  ((fm1 * quad_b ray sphere - sqrtf (discriminant ray sphere)) / (f2 * quad_a ray))%f32.

(** The hit points [Intersect] reports, as a list. *)
Definition hits (ray : Ray) (sphere : Sphere) : list Vector3 :=
  let '(n, r) := Intersect ray sphere (Vector3_splat f0, Vector3_splat f0) in
  firstn (Z.to_nat n) [fst r; snd r].

(** ** Hemisphere sampler *)

Definition RandomTangentFrame (normal : Vector3) : Vector3 * Vector3 :=
  let right := mkVector3 fm1 f0 f0 in
  let up := mkVector3 f0 f1 f0 in
  let outTangent := if IsEquivalent normal right kEpsilon then up else right in
  let outBitangent := Normalize (Cross normal outTangent) in
  let outTangent := Normalize (Cross outBitangent normal) in
  (outTangent, outBitangent).

(** ** Outcomes and the random stream

    [rand()] reads and advances a hidden global generator; [assert]
    aborts the process.  A computation is a function of the number of
    [rand()] calls made so far, returning a value and the new count, or
    the reason why no value is returned. *)

Inductive error : Type :=
| AssertionFailed      (* [assert] fired: the process aborts *)
| UndefinedBehaviour   (* index out of range, signed overflow *)
| OutOfFuel.           (* the recursion is deeper than the fuel given *)

Inductive outcome (A : Type) : Type :=
| Ok (a : A)
| Err (e : error).
Arguments Ok {A} a.
Arguments Err {A} e.

Definition M (A : Type) : Type := nat -> outcome (A * nat).

Definition ret {A} (a : A) : M A := fun k => Ok (a, k).
Definition fail {A} (e : error) : M A := fun _ => Err e.
Definition bind {A B} (c : M A) (f : A -> M B) : M B :=
  fun k => match c k with
           | Ok (a, k') => f a k'
           | Err e => Err e
           end.

Declare Scope M_scope.
Delimit Scope M_scope with M.
Notation "v <- c ;; k" := (bind c (fun v => k))
  (at level 61, c at next level, right associativity) : M_scope.
Notation "c ;; k" := (bind c (fun _ => k))
  (at level 61, right associativity) : M_scope.
Open Scope M_scope.

(** [for (int i = i0; ...; ++i)] running [n] times over an accumulator. *)
Fixpoint for_loop {A} (n : nat) (i : Z) (body : Z -> A -> M A) (acc : A) : M A :=
  match n with
  | O => ret acc
  | S n' => acc' <- body i acc ;; for_loop n' (i + 1)%Z body acc'
  end.

Definition USE_SKY_COLOR : Z := 0.
Definition kMaxBounces : Z := 6.

(** The three locals of the nearest-hit search in [TracePath]. *)
Record Nearest : Type := mkNearest
  { nearestSphereIndex : Z;
    nearestDistance : float;
    nearestIntersection : Vector3 }.

(** One iteration of the loop over the spheres. *)
Definition scan_step (ray : Ray) (i : Z) (sphere : Sphere) (st : Nearest) : Nearest :=
  let intersection : array2 := (Vector3_splat f0, Vector3_splat f0) in
  let '(numIntersections, intersection) := Intersect ray sphere intersection in
  if (numIntersections >? 0)%Z then
    let distance := Length (aget intersection 0 - origin ray)%vec in
    if (distance <? nearestDistance st)%f32
    then mkNearest i distance (aget intersection 0)
    else st
  else st.

Fixpoint scan (ray : Ray) (spheres : list Sphere) (i : Z) (st : Nearest) : Nearest :=
  match spheres with
  | [] => st
  | sphere :: rest => scan ray rest (i + 1)%Z (scan_step ray i sphere st)
  end.

Definition nearest_hit (ray : Ray) (spheres : list Sphere) : Nearest :=
  scan ray spheres 0 (mkNearest INT_MAX FLT_MAX (Vector3_splat FLT_MAX)).

(** Truncation towards zero of a finite [float]. *)
Definition trunc (v : float) : Z :=
  match v with
  | S754_finite s m e =>
      let n := if (0 <=? e)%Z then (Zpos m * 2 ^ e)%Z else (Zpos m / 2 ^ (- e))%Z in
      if s then (- n)%Z else n
  | _ => 0%Z
  end.

(** [static_cast<BYTE>(v)]: the truncated value when a [BYTE] can hold
    it; undefined for any other value, for an infinity and for a NaN. *)
Definition BYTE_of_float (v : float) : M Z :=
  match v with
  | S754_nan | S754_infinity _ => fail UndefinedBehaviour
  | _ => if (0 <=? trunc v)%Z && (trunc v <=? 255)%Z
         then ret (trunc v)
         else fail UndefinedBehaviour
  end.

(** The [RGB] macro of <wingdi.h>. *)
Definition RGB (r g b : Z) : Z :=
  Z.lor (Z.lor r (Z.shiftl g 8)) (Z.shiftl b 16).

Definition GenerateTangentSphere (sphere : Sphere) (c : Vector3) (m : Material) : Sphere :=
  mkSphere c (Length (c - center sphere)%vec - radius sphere)%f32 m.

Definition GenerateOffsetSphere (sphere : Sphere) (c : Vector3) (offset : float)
    (m : Material) : Sphere :=
  mkSphere c (Length (c - center sphere)%vec - radius sphere - offset)%f32 m.

Definition vec3 (a b c : float) : Vector3 := mkVector3 a b c.

Definition f10 : float := lit 10 0.
Definition f5 : float := lit 5 0.
Definition f100 : float := lit 100 0.
Definition f255 : float := lit 255 0.
Definition f0_5 : float := lit 1 (-1).
Definition f0_25 : float := lit 1 (-2).
Definition f0_125 : float := lit 1 (-3).
Definition f0_75 : float := lit 3 (-2).
Definition f1_5 : float := lit 3 (-1).
Definition f0_05 : float := lit 13421773 (-28).   (* 0.05f *)
Definition f0_1 : float := lit 13421773 (-27).    (* 0.1f *)
Definition f0_65 : float := lit 10905190 (-24).   (* 0.65f *)
Definition f0_55 : float := lit 9227469 (-24).    (* 0.55f *)

Definition InitScene_materials : list Material :=
  [ mkMaterial (vec3 f1 f1 f1) (vec3 f0 f0 f0) f1;
    mkMaterial (vec3 f0_5 f1 f0_5) (vec3 f10 f10 f10) f1;
    mkMaterial (vec3 f1 f0_5 f0_5) (vec3 f0 f0 f0) f1;
    mkMaterial (vec3 f0_5 f0_5 f1) (vec3 f0 f0 f0) f1;
    mkMaterial (vec3 f0_5 f1 f0_75) (vec3 f0 f0 f0) f1;
    mkMaterial (vec3 f1 f1 f0_5) (vec3 f10 f5 f5) f1;
    mkMaterial (vec3 f1 f1 f1) (vec3 f0 f0 f0) f1;
    mkMaterial (vec3 f0_5 f1 f1) (vec3 f5 f5 f10) f1 ].

Definition InitScene : list Sphere :=
  let materials := InitScene_materials in
  let mat (i : nat) := nth i materials (mkMaterial (vec3 f0 f0 f0) (vec3 f0 f0 f0) f0) in
  let globalRadius := f100 in
  let globalCenter := vec3 f0 (SFopp globalRadius) f0 in
  let s0 := mkSphere globalCenter f100 (mat 0%nat) in
  [ s0;
    GenerateOffsetSphere s0 (vec3 f0 f0_25 f0) f0_125 (mat 1%nat);
    GenerateTangentSphere s0 (vec3 (SFopp f0_5) f0_125 f0) (mat 2%nat);
    GenerateTangentSphere s0 (vec3 f0_5 f0_25 f0_5) (mat 3%nat);
    GenerateTangentSphere s0 (vec3 f0_25 f0_05 (SFopp f0_25)) (mat 4%nat);
    GenerateOffsetSphere s0 (vec3 (SFopp f0_25) f1 f1_5) f0_5 (mat 5%nat);
    GenerateTangentSphere s0 (vec3 f0_25 f0_1 f0_25) (mat 6%nat);
    GenerateTangentSphere s0 (vec3 (SFopp f0_65) f0_05 (SFopp f0_25)) (mat 7%nat) ].

Section Integrator.

(** [cosf] and [sinf] of <cmath>, the values [rand()] returns in the
    order of the calls, and whether the build defines [NDEBUG] (which
    removes [assert]). *)
Variable cosf sinf : float -> float.
Variable rand_values : nat -> Z.
Variable NDEBUG : bool.

Definition rand : M Z := fun k => Ok (rand_values k, S k).

Definition assert (cond : bool) : M unit :=
  if NDEBUG then ret tt
  else if cond then ret tt else fail AssertionFailed.

(** [++bounce] on an [int]. *)
Definition pre_increment (n : Z) : M Z :=
  if (n =? INT_MAX)%Z then fail UndefinedBehaviour else ret (n + 1)%Z.

Definition RandomVector (normal : Vector3) (rand0 rand1 : float) : Vector3 :=
  let sqrtFactor := sqrtf (f1 - rand0 * rand0)%f32 in
  let cosFactor := cosf (f2 * kPi * rand1)%f32 in
  let sinFactor := sinf (f2 * kPi * rand1)%f32 in
  let randVec := mkVector3 (sqrtFactor * cosFactor)%f32 rand0 (sqrtFactor * sinFactor)%f32 in
  let '(tangent, bitangent) := RandomTangentFrame normal in
  let rowX := mkVector3 (x tangent) (x normal) (x bitangent) in
  let rowY := mkVector3 (y tangent) (y normal) (y bitangent) in
  let rowZ := mkVector3 (z tangent) (z normal) (z bitangent) in
  let result := mkVector3 (Dot randVec rowX) (Dot randVec rowY) (Dot randVec rowZ) in
  result.

Fixpoint TracePath (fuel : nat) (ray : Ray) (spheres : list Sphere) (bounce : Z)
    {struct fuel} : M Vector3 :=
  match fuel with
  | O => fail OutOfFuel
  | S fuel' =>
    if (bounce =? kMaxBounces)%Z then ret (mkVector3 f0 f0 f0)
    else
      let nearest := nearest_hit ray spheres in
      if (nearestSphereIndex nearest =? INT_MAX)%Z then
        if (USE_SKY_COLOR =? 1)%Z
        then ret (Lerp (mkVector3 f0 f0 f0) (mkVector3 f0_25 f0_55 f0_75)
                       (y (direction ray)))
        else ret (mkVector3 f0 f0 f0)
      else
        match nth_error spheres (Z.to_nat (nearestSphereIndex nearest)) with
        | None => fail UndefinedBehaviour
        | Some closestSphere =>
          let normal :=
            Normalize (nearestIntersection nearest - center closestSphere)%vec in
          r0 <- rand ;;
          let rand0 := (float_of_int r0 / float_of_int (RAND_MAX + 1))%f32 in
          r1 <- rand ;;
          let rand1 := (float_of_int r1 / float_of_int (RAND_MAX + 1))%f32 in
          let newDir := RandomVector normal rand0 rand1 in
          let check := Dot newDir normal in
          assert (check >=? (f0 - kEpsilon))%f32 ;;
          let newRay :=
            mkRay (nearestIntersection nearest + normal *: kEpsilon)%vec newDir in
          bounce' <- pre_increment bounce ;;
          radiance <- TracePath fuel' newRay spheres bounce' ;;
          ret (emissive (material closestSphere)
               + albedo (material closestSphere) * radiance *: Dot normal newDir)%vec
        end
  end.

Definition kNumSamples : nat := 1024.

(** The body of the two pixel loops of [Render]: the colour of pixel
    [(i, j)], appended to the [SetPixel] calls made so far. *)
Definition Render_pixel (spheres : list Sphere) (camPos camRight orthoCamUp : Vector3)
    (dx dy : float) (i j : Z) (pixels : list (Z * Z * Z)) : M (list (Z * Z * Z)) :=
  let nearPlanePos :=
    (camRight *: (fm1 + dx * float_of_int i)%f32
     + orthoCamUp *: (f1 - dy * float_of_int j)%f32)%vec in
  let ray := mkRay camPos (Normalize (nearPlanePos - camPos)%vec) in
  colorSum <- for_loop kNumSamples 0
                (fun _ colorSum =>
                   sample <- TracePath (S (Z.to_nat kMaxBounces)) ray spheres 0 ;;
                   ret (colorSum + sample)%vec)
                (Vector3_splat f0) ;;
  let color := (colorSum * Vector3_splat (f1 / float_of_int (Z.of_nat kNumSamples))%f32)%vec in
  r <- BYTE_of_float (Saturate (x color) * f255)%f32 ;;
  g <- BYTE_of_float (Saturate (y color) * f255)%f32 ;;
  b <- BYTE_of_float (Saturate (z color) * f255)%f32 ;;
  let fragmentColor := RGB r g b in
  ret (pixels ++ [(i, j, fragmentColor)]).

(** The [SetPixel] calls of [Render], in order: [(i, j, COLORREF)]. *)
Definition Render (width height : Z) : M (list (Z * Z * Z)) :=
  let spheres := InitScene in
  let camTarget := vec3 f0 f0 f0 in
  let camPos := vec3 f0 f0_5 fm1 in
  let camUp := vec3 f0 f1 f0 in
  let camRight := Cross camUp (Normalize (camTarget - camPos)%vec) in
  let orthoCamUp := Cross camRight (Normalize camPos) in
  let dx := (f2 / float_of_int width)%f32 in
  let dy := (f2 / float_of_int height)%f32 in
  for_loop (Z.to_nat width) 0
    (fun i pixels =>
       for_loop (Z.to_nat height) 0
         (fun j pixels =>
            Render_pixel spheres camPos camRight orthoCamUp dx dy i j pixels)
         pixels)
    [].

End Integrator.

(** ** Vocabulary of the statements *)

(** The roots [Intersect] examines: [t0] whenever the discriminant is
    not negative, [t1] only when the discriminant exceeds [kEpsilon];
    and those of them it includes, the non-negative ones. *)
Definition examined_roots (ray : Ray) (sphere : Sphere) : list float :=
  if (discriminant ray sphere <? f0)%f32 then []
  else root0 ray sphere
       :: (if (discriminant ray sphere >? kEpsilon)%f32 then [root1 ray sphere] else []).

Definition included_roots (ray : Ray) (sphere : Sphere) : list float :=
  filter (fun t => (t >=? f0)%f32) (examined_roots ray sphere).

(** [t] is a least element of [ts]. *)
Definition is_nearest (t : float) (ts : list float) : Prop :=
  In t ts /\ forall t', In t' ts -> (t <=? t')%f32 = true.

Definition is_nan (v : float) : bool :=
  match v with S754_nan => true | _ => false end.

(** All three components are NaN. *)
Definition all_nan (v : Vector3) : bool := is_nan (x v) && is_nan (y v) && is_nan (z v).

Definition nan3 : Vector3 := mkVector3 S754_nan S754_nan S754_nan.

(** Numerical equality of vectors, component by component ([==] of C++
    on each [float]: the two zeros are equal, a NaN equals nothing). *)
Definition veqb (a b : Vector3) : bool :=
  SFeqb (x a) (x b) && SFeqb (y a) (y b) && SFeqb (z a) (z b).

(** The frame [RandomTangentFrame] builds around [normal] is
    orthonormal: the three vectors have length 1 and the three dot
    products are zero (here exactly; a NaN fails every test). *)
Definition orthonormal_frame (normal : Vector3) : bool :=
  let '(tangent, bitangent) := RandomTangentFrame normal in
  SFeqb (Length tangent) f1 && SFeqb (Length normal) f1 && SFeqb (Length bitangent) f1
  && SFeqb (Dot tangent normal) f0 && SFeqb (Dot bitangent normal) f0
  && SFeqb (Dot tangent bitangent) f0.

(** Some component is not a zero. *)
Definition nonzero (v : Vector3) : bool := negb (veqb v (Vector3_splat f0)).

(** An outcome that is a value or the abort of a failed assertion. *)
Definition returns_or_aborts {A} (r : outcome A) : Prop :=
  (exists a, r = Ok a) \/ r = Err AssertionFailed.

(** Follows the specification, not the code: the non-negative roots of
    the quadratic, both of them whatever the size of the discriminant. *)
Definition spec_nonneg_roots (ray : Ray) (sphere : Sphere) : list float :=
  filter (fun t => (t >=? f0)%f32) [root0 ray sphere; root1 ray sphere].

(** Follows the specification: the first point returned is the point of
    the nearest non-negative intersection along the ray. *)
Definition spec_first_hit_is_nearest (ray : Ray) (sphere : Sphere) : Prop :=
  nonzero (direction ray) = true ->
  forall p rest, hits ray sphere = p :: rest ->
    exists t, is_nearest t (spec_nonneg_roots ray sphere) /\ p = point_at ray t.

(** Follows the specification: the ray passes through the sphere, that
    is, some point of the ray lies strictly inside it. *)
Definition spec_passes_through (ray : Ray) (sphere : Sphere) : Prop :=
  exists t, (t >=? f0)%f32 = true
            /\ (Distance (point_at ray t) (center sphere) <? radius sphere)%f32 = true.

(** Follows the specification: two points for a ray that passes through
    the sphere with both roots non-negative. *)
Definition spec_two_hits_when_through (ray : Ray) (sphere : Sphere) : Prop :=
  nonzero (direction ray) = true ->
  spec_passes_through ray sphere ->
  (root0 ray sphere >=? f0)%f32 = true ->
  (root1 ray sphere >=? f0)%f32 = true ->
  exists p q, hits ray sphere = [p; q].

(** Follows the specification: the recursion of [TracePath] stays within
    the bounce budget, that is, [kMaxBounces + 1] nested calls (bounce 0
    to bounce [kMaxBounces]) are enough. *)
Definition spec_depth_bounded (cosf sinf : float -> float) (rand_values : nat -> Z)
    (NDEBUG : bool) (ray : Ray) (spheres : list Sphere) (bounce : Z) (k : nat) : Prop :=
  TracePath cosf sinf rand_values NDEBUG (S (Z.to_nat kMaxBounces)) ray spheres bounce k
  <> Err OutOfFuel.

(** ** Concrete inputs *)

(** A vector with integer components. *)
Definition ivec (a b c : Z) : Vector3 :=
  mkVector3 (float_of_int a) (float_of_int b) (float_of_int c).

Definition emissive_only : Material := mkMaterial (ivec 0 0 0) (ivec 10 10 10) f1.
Definition white_light : Material := mkMaterial (ivec 1 1 1) (ivec 1 1 1) f1.

(** Centre [(0,0,0)], radius 1. *)
Definition unit_sphere : Sphere := mkSphere (ivec 0 0 0) f1 emissive_only.
(** Centre [(0,0,0)], radius 1024. *)
Definition big_sphere : Sphere := mkSphere (ivec 0 0 0) (lit 1024 0) white_light.
(** Centre [(1,0,0)], radius 1. *)
Definition side_sphere : Sphere := mkSphere (ivec 1 0 0) f1 emissive_only.

(** From [(0,0,-5)] towards [+z]: the example of the specification. *)
Definition ray_z : Ray := mkRay (ivec 0 0 (-5)) (ivec 0 0 1).
(** From [(0,0,-4)] towards [+z] with a direction of length [2^-10]. *)
Definition ray_short : Ray := mkRay (ivec 0 0 (-4)) (mkVector3 f0 f0 (lit 1 (-10))).
(** Centre [(0,0,0)], radius [2^-10]. *)
Definition small_sphere : Sphere := mkSphere (ivec 0 0 0) (lit 1 (-10)) emissive_only.
(** From [(0,0,-2^-8)] towards [+z], with a unit direction. *)
Definition ray_near : Ray := mkRay (mkVector3 f0 f0 (lit (-1) (-8))) (ivec 0 0 1).
(** From [(5,0,0)] towards [-x]: hits the unit sphere at [(1,0,0)]. *)
Definition ray_x : Ray := mkRay (ivec 5 0 0) (ivec (-1) 0 0).
(** From the centre towards [+z]. *)
Definition ray_centre : Ray := mkRay (ivec 0 0 0) (ivec 0 0 1).
(** From [(0,5,0)] towards [+z]: passes the unit sphere at distance 5. *)
Definition ray_far : Ray := mkRay (ivec 0 5 0) (ivec 0 0 1).
(** From [(0,0,5)] towards [+z]: the unit sphere lies behind it. *)
Definition ray_away : Ray := mkRay (ivec 0 0 5) (ivec 0 0 1).
(** From [(0,0,-5)] towards [+z]: touches [side_sphere] at the origin. *)
Definition ray_touch : Ray := ray_z.

(** [cosf] and [sinf] where C fixes them exactly, at the two zeros
    ([cos 0 = 1], [sin (+-0) = +-0]); NaN elsewhere, so that no other
    value is relied upon. *)
Definition cosf_at_zero (v : float) : float :=
  match v with S754_zero _ => f1 | _ => S754_nan end.
Definition sinf_at_zero (v : float) : float :=
  match v with S754_zero s => S754_zero s | _ => S754_nan end.

(** From [(0,0,1024)] along [(-1,0,0)]: grazes the big sphere where it
    starts. *)
Definition ray_graze : Ray := mkRay (ivec 0 0 1024) (ivec (-1) 0 0).

(** A generator that returns 0 at every call. *)
Definition rand_zero (n : nat) : Z := 0%Z.

(** ** Vocabulary of the further properties *)

Definition is_finite (v : float) : bool :=
  match v with S754_zero _ | S754_finite _ _ _ => true | _ => false end.

(** All three components are zeros or finite numbers. *)
Definition finite_vec (v : Vector3) : bool :=
  is_finite (x v) && is_finite (y v) && is_finite (z v).

(** Some component is NaN. *)
Definition has_nan (v : Vector3) : bool := is_nan (x v) || is_nan (y v) || is_nan (z v).

(** The sign of [v] is [sx], unless [v] is NaN. *)
Definition has_sign (sx : bool) (v : float) : Prop :=
  match v with
  | S754_zero s | S754_infinity s | S754_finite s _ _ => s = sx
  | S754_nan => True
  end.

(** The place of a number in the order [SFcompare] decides: a class
    (the two infinities, the negative and the positive finite numbers,
    the zeros) and, inside the finite classes, exponent and mantissa. *)
Definition order_key (v : float) : Z * Z * Z :=
  match v with
  | S754_nan => (0, 0, 0)
  | S754_zero _ => (0, 0, 0)
  | S754_infinity true => (-2, 0, 0)
  | S754_infinity false => (2, 0, 0)
  | S754_finite true m e => (-1, - e, - Zpos m)
  | S754_finite false m e => (1, e, Zpos m)
  end%Z.

Definition key_lt (p q : Z * Z * Z) : Prop :=
  let '(a1, b1, c1) := p in
  let '(a2, b2, c2) := q in
  (a1 < a2 \/ (a1 = a2 /\ (b1 < b2 \/ (b1 = b2 /\ c1 < c2))))%Z.

Definition key_le (p q : Z * Z * Z) : Prop := key_lt p q \/ p = q.

(** What one iteration of the nearest-hit loop looks at: the first point
    [Intersect] reports for the sphere and its distance from the origin
    of the ray, when there is a point. *)
Definition first_hit (ray : Ray) (sphere : Sphere) : option (Vector3 * float) :=
  let '(numIntersections, intersection) :=
    Intersect ray sphere (Vector3_splat f0, Vector3_splat f0) in
  if (numIntersections >? 0)%Z
  then Some (aget intersection 0, Length (aget intersection 0 - origin ray)%vec)
  else None.

(** Two spheres that differ at most in the roughness of their material. *)
Definition same_but_roughness (s s' : Sphere) : Prop :=
  center s = center s' /\ radius s = radius s'
  /\ albedo (material s) = albedo (material s')
  /\ emissive (material s) = emissive (material s').

(** The pixels of a [width] by [height] window in the order of the two
    loops of [Render]: column by column, each from the top. *)
Definition column_major (width height : Z) : list (Z * Z) :=
  flat_map (fun i => map (fun j => (Z.of_nat i, Z.of_nat j)) (seq 0 (Z.to_nat height)))
           (seq 0 (Z.to_nat width)).

(** The nearest-hit loop of the second copy of [TracePath], which takes
    the points from the vector its [Intersect] returns. *)
Module Part000Loop.

Definition scan_step (ray : Ray) (i : Z) (sphere : Sphere) (st : Nearest) : Nearest :=
  let intersection := Part000.Intersect ray sphere in
  match intersection with
  | [] => st
  | first :: _ =>
      let distance := Length (first - origin ray)%vec in
      if (distance <? nearestDistance st)%f32
      then mkNearest i distance first
      else st
  end.

Fixpoint scan (ray : Ray) (spheres : list Sphere) (i : Z) (st : Nearest) : Nearest :=
  match spheres with
  | [] => st
  | sphere :: rest => scan ray rest (i + 1)%Z (scan_step ray i sphere st)
  end.

Definition nearest_hit (ray : Ray) (spheres : list Sphere) : Nearest :=
  scan ray spheres 0 (mkNearest INT_MAX FLT_MAX (Vector3_splat FLT_MAX)).

End Part000Loop.

(** ** The path of a ray and the device context *)

(** The ray [TracePath] continues with when [ray] hits a sphere, the
    two samples being the values [rand()] returns at positions [k] and
    [k + 1]; nothing when the search finds no sphere. *)
Definition continuation (cosf sinf : float -> float) (rand_values : nat -> Z)
    (ray : Ray) (spheres : list Sphere) (k : nat) : option Ray :=
  let nearest := nearest_hit ray spheres in
  if (nearestSphereIndex nearest =? INT_MAX)%Z then None
  else
    match nth_error spheres (Z.to_nat (nearestSphereIndex nearest)) with
    | None => None
    | Some closestSphere =>
      let normal :=
        Normalize (nearestIntersection nearest - center closestSphere)%vec in
      let rand0 :=
        (float_of_int (rand_values k) / float_of_int (RAND_MAX + 1))%f32 in
      let rand1 :=
        (float_of_int (rand_values (S k)) / float_of_int (RAND_MAX + 1))%f32 in
      Some (mkRay (nearestIntersection nearest + normal *: kEpsilon)%vec
                  (RandomVector cosf sinf normal rand0 rand1))
    end.

(** The number of surface hits on the path that starts with [ray] and
    may bounce [bounces_left] times: the path goes on from hit to hit,
    each continuation ray sampled with the next two values of the
    stream, and ends where a ray finds no sphere. *)
Fixpoint surface_hits (cosf sinf : float -> float) (rand_values : nat -> Z)
    (bounces_left : nat) (ray : Ray) (spheres : list Sphere) (k : nat) : nat :=
  match bounces_left with
  | O => O
  | S n =>
    match continuation cosf sinf rand_values ray spheres k with
    | None => O
    | Some newRay => S (surface_hits cosf sinf rand_values n newRay spheres (S (S k)))
    end
  end.

(** The device context [SetPixel] writes to: a colour for each pixel. *)
Definition Surface : Type := Z * Z -> Z.

Definition SetPixel (hdc : Surface) (X Y color : Z) : Surface :=
  fun p => if (fst p =? X)%Z && (snd p =? Y)%Z then color else hdc p.

(** The device context after the [SetPixel] calls of a run, in order. *)
Definition paint (calls : list (Z * Z * Z)) (hdc : Surface) : Surface :=
  fold_left (fun h c => SetPixel h (fst (fst c)) (snd (fst c)) (snd c)) calls hdc.

(** Two generators, one at position [k1] and one at position [k2],
    return the same values at their next [n] calls. *)
Definition same_draws (rand1 rand2 : nat -> Z) (n k1 k2 : nat) : Prop :=
  forall m, (m < n)%nat -> rand1 (k1 + m)%nat = rand2 (k2 + m)%nat.

(** Two runs, started at positions [k1] and [k2], end alike: with the
    same value after the same number of [rand()] calls, [n] at most,
    or with the same abort. *)
Definition same_run {A} (n k1 k2 : nat) (r1 r2 : outcome (A * nat)) : Prop :=
  match r1, r2 with
  | Ok (a1, k1'), Ok (a2, k2') =>
      a1 = a2 /\ exists d, (d <= n)%nat /\ k1' = (k1 + d)%nat /\ k2' = (k2 + d)%nat
  | Err e1, Err e2 => e1 = e2
  | _, _ => False
  end.

(** * Literals *)

(** The decimal literals of the source are written above with the
    mantissa and exponent of the binary32 nearest to them. *)
Lemma decimal_literals_nearest :
  nearest_decimal 31415927 10000000 13176795 (-22) = true
  /\ nearest_decimal 1 100000 10995116 (-40) = true
  /\ nearest_decimal 5 100 13421773 (-28) = true
  /\ nearest_decimal 1 10 13421773 (-27) = true
  /\ nearest_decimal 65 100 10905190 (-24) = true
  /\ nearest_decimal 55 100 9227469 (-24) = true.
Proof. repeat split; vm_compute; reflexivity. Qed.

Lemma platform_constants :
  valid_binary prec emax FLT_MAX = true
  /\ float_of_int (RAND_MAX + 1) = lit 1 15
  /\ SFmax_float prec emax = FLT_MAX.
Proof. repeat split; vm_compute; reflexivity. Qed.

(** * Facts about binary32 comparison *)

Lemma SFcompare_antisym (a b : float) :
  SFcompare b a = option_map CompOpp (SFcompare a b).
Proof.
  destruct a as [sa|sa| |sa ma ea], b as [sb|sb| |sb mb eb]; simpl;
    try reflexivity;
    try (destruct sa; reflexivity); try (destruct sb; reflexivity);
    try (destruct sa, sb; reflexivity).
  assert (Hm : Pos.compare_cont Eq mb ma = CompOpp (Pos.compare_cont Eq ma mb))
    by (rewrite (Pos.compare_cont_antisym ma mb Eq); reflexivity).
  destruct sa, sb; simpl; try reflexivity;
    rewrite (Z.compare_antisym ea eb);
    destruct (ea ?= eb)%Z eqn:E; simpl; try reflexivity;
    change PosDef.Pos.compare_cont with Pos.compare_cont;
    rewrite Hm; try rewrite CompOpp_involutive; reflexivity.
Qed.

Lemma SFcompare_refl (a : float) : is_nan a = false -> SFcompare a a = Some Eq.
Proof.
  destruct a as [s|s| |s m e]; simpl; intros H; try discriminate;
    try (destruct s; reflexivity).
  destruct s; rewrite Z.compare_refl, Pos.compare_cont_refl; reflexivity.
Qed.

(** A comparison that holds has no NaN on its left. *)
Lemma fge_not_nan (t u : float) : (t >=? u)%f32 = true -> is_nan t = false.
Proof.
  unfold fge, SFleb. destruct t; try reflexivity.
  destruct u; simpl; discriminate.
Qed.

Lemma fle_refl (t : float) : is_nan t = false -> (t <=? t)%f32 = true.
Proof. intros H. unfold fle, SFleb. rewrite (SFcompare_refl _ H). reflexivity. Qed.

Lemma flt_fle (a b : float) : (a <? b)%f32 = true -> (a <=? b)%f32 = true.
Proof. unfold flt, fle, SFltb, SFleb. destruct (SFcompare a b) as [[]|]; congruence. Qed.

Lemma not_flt_fle (a b : float) :
  is_nan a = false -> is_nan b = false -> (b <? a)%f32 = false -> (a <=? b)%f32 = true.
Proof.
  unfold flt, fle, SFltb, SFleb. intros Ha Hb.
  rewrite (SFcompare_antisym a b).
  destruct (SFcompare a b) as [[]|] eqn:E; simpl; try congruence.
  destruct a, b; simpl in *; discriminate.
Qed.

Lemma fle_not_flt (a b : float) : (a <=? b)%f32 = true -> (b <? a)%f32 = false.
Proof.
  unfold fle, flt, SFleb, SFltb. rewrite (SFcompare_antisym a b).
  destruct (SFcompare a b) as [[]|]; simpl; congruence.
Qed.

Lemma above_epsilon_not_negative (d : float) :
  (d >? kEpsilon)%f32 = true -> (d <? f0)%f32 = false.
Proof.
  destruct d as [s|s| |s m e]; try destruct s; try reflexivity;
    intros H; vm_compute in H; discriminate.
Qed.

Lemma fmul_nan_r (a : float) : (a * S754_nan)%f32 = S754_nan.
Proof. destruct a; reflexivity. Qed.

Lemma fadd_nan_r (a : float) : (a + S754_nan)%f32 = S754_nan.
Proof. destruct a; reflexivity. Qed.

Lemma is_nearest_single (t : float) : is_nan t = false -> is_nearest t [t].
Proof.
  intros H. split; [left; reflexivity|].
  intros t' [<-|[]]. apply fle_refl, H.
Qed.

Lemma is_nearest_fst (t u : float) :
  is_nan t = false -> (t <=? u)%f32 = true -> is_nearest t [t; u].
Proof.
  intros Ht Hle. split; [left; reflexivity|].
  intros t' [<-|[<-|[]]]; auto using fle_refl.
Qed.

Lemma is_nearest_snd (t u : float) :
  is_nan t = false -> (t <=? u)%f32 = true -> is_nearest t [u; t].
Proof.
  intros Ht Hle. split; [right; left; reflexivity|].
  intros t' [<-|[<-|[]]]; auto using fle_refl.
Qed.

(** * The intersection solver *)

(** [Intersect] by cases on the discriminant and the two roots. *)
Lemma hits_cases (ray : Ray) (sphere : Sphere) :
  hits ray sphere =
  if (discriminant ray sphere <? f0)%f32 then []
  else if (discriminant ray sphere >? kEpsilon)%f32 then
    if (root0 ray sphere >=? f0)%f32 then
      if (root1 ray sphere >=? f0)%f32 then
        if (root1 ray sphere <? root0 ray sphere)%f32
        then [point_at ray (root1 ray sphere); point_at ray (root0 ray sphere)]
        else [point_at ray (root0 ray sphere); point_at ray (root1 ray sphere)]
      else [point_at ray (root0 ray sphere)]
    else if (root1 ray sphere >=? f0)%f32 then [point_at ray (root1 ray sphere)]
    else []
  else if (root0 ray sphere >=? f0)%f32 then [point_at ray (root0 ray sphere)]
  else [].
Proof.
  unfold hits, Intersect.
  fold (quad_a ray) (quad_b ray sphere) (quad_c ray sphere).
  fold (discriminant ray sphere). fold (root0 ray sphere) (root1 ray sphere).
  fold (point_at ray (root0 ray sphere)) (point_at ray (root1 ray sphere)).
  destruct (discriminant ray sphere <? f0)%f32; [reflexivity|].
  destruct (root0 ray sphere >=? f0)%f32;
    destruct (discriminant ray sphere >? kEpsilon)%f32; try reflexivity;
    destruct (root1 ray sphere >=? f0)%f32; try reflexivity;
    destruct (root1 ray sphere <? root0 ray sphere)%f32; reflexivity.
Qed.

Lemma included_roots_cases (ray : Ray) (sphere : Sphere) :
  included_roots ray sphere =
  if (discriminant ray sphere <? f0)%f32 then []
  else if (discriminant ray sphere >? kEpsilon)%f32 then
    if (root0 ray sphere >=? f0)%f32 then
      if (root1 ray sphere >=? f0)%f32 then [root0 ray sphere; root1 ray sphere]
      else [root0 ray sphere]
    else if (root1 ray sphere >=? f0)%f32 then [root1 ray sphere] else []
  else if (root0 ray sphere >=? f0)%f32 then [root0 ray sphere] else [].
Proof.
  unfold included_roots, examined_roots.
  destruct (discriminant ray sphere <? f0)%f32; [reflexivity|].
  destruct (discriminant ray sphere >? kEpsilon)%f32; simpl;
    destruct (root0 ray sphere >=? f0)%f32; try reflexivity;
    destruct (root1 ray sphere >=? f0)%f32; reflexivity.
Qed.

(** C10.  The two copies of [Intersect] agree: the count the array
    version returns is the length of the vector the other version
    returns, and the first [count] entries of the array are that vector,
    in the same order; whatever the array held before the call. *)
Theorem Intersect_versions_agree (ray : Ray) (sphere : Sphere) (result : array2) :
  let '(n, r) := Intersect ray sphere result in
  n = Z.of_nat (length (Part000.Intersect ray sphere))
  /\ firstn (Z.to_nat n) [aget r 0; aget r 1] = Part000.Intersect ray sphere.
Proof.
  unfold Intersect, Part000.Intersect.
  fold (quad_a ray) (quad_b ray sphere) (quad_c ray sphere).
  fold (discriminant ray sphere). fold (root0 ray sphere) (root1 ray sphere).
  destruct (discriminant ray sphere <? f0)%f32; [split; reflexivity|].
  destruct (root0 ray sphere >=? f0)%f32;
    destruct (discriminant ray sphere >? kEpsilon)%f32; try (split; reflexivity);
    destruct (root1 ray sphere >=? f0)%f32; try (split; reflexivity);
    destruct (root1 ray sphere <? root0 ray sphere)%f32; split; reflexivity.
Qed.

(** C1 (amended).  When [Intersect] returns two points they are the
    points of the two roots in ascending order of the root parameter
    (swapped exactly when [t1 < t0]); and whenever it returns at least
    one point, the first one is the point of the least of the roots it
    included, where [t0] is examined whenever the discriminant is not
    negative and [t1] only when the discriminant exceeds [kEpsilon]. *)
Theorem Intersect_first_is_nearest_included (ray : Ray) (sphere : Sphere) :
  (forall p q, hits ray sphere = [p; q] ->
     exists ta tb,
       p = point_at ray ta /\ q = point_at ray tb
       /\ (ta >=? f0)%f32 = true /\ (ta <=? tb)%f32 = true
       /\ (if (root1 ray sphere <? root0 ray sphere)%f32
           then ta = root1 ray sphere /\ tb = root0 ray sphere
           else ta = root0 ray sphere /\ tb = root1 ray sphere))
  /\ (forall p rest, hits ray sphere = p :: rest ->
        exists t, is_nearest t (included_roots ray sphere) /\ p = point_at ray t).
Proof.
  rewrite hits_cases, included_roots_cases.
  destruct (discriminant ray sphere <? f0)%f32; [split; intros; discriminate|].
  destruct (discriminant ray sphere >? kEpsilon)%f32;
    destruct (root0 ray sphere >=? f0)%f32 eqn:H0;
    try (destruct (root1 ray sphere >=? f0)%f32 eqn:H1);
    try (destruct (root1 ray sphere <? root0 ray sphere)%f32 eqn:Hlt);
    (split; [intros p q Hh | intros p rest Hh]);
    try discriminate; injection Hh as <- <-;
    try (apply fge_not_nan in H0 as N0); try (apply fge_not_nan in H1 as N1);
    try (eexists _, _; cbv iota; repeat split; now eauto using flt_fle, not_flt_fle);
    (eexists; split; [|reflexivity]);
    first [ now apply is_nearest_single
          | now apply is_nearest_snd; auto using flt_fle
          | now apply is_nearest_fst; auto using not_flt_fle ].
Qed.

(** Both parts at the example of the specification: the two hits
    [(0,0,-1)] and [(0,0,1)] of the unit sphere. *)
Lemma Intersect_first_is_nearest_included_witness :
  hits ray_z unit_sphere = [ivec 0 0 (-1); ivec 0 0 1]
  /\ (exists ta tb,
       ivec 0 0 (-1) = point_at ray_z ta /\ ivec 0 0 1 = point_at ray_z tb
       /\ (ta >=? f0)%f32 = true /\ (ta <=? tb)%f32 = true
       /\ (if (root1 ray_z unit_sphere <? root0 ray_z unit_sphere)%f32
           then ta = root1 ray_z unit_sphere /\ tb = root0 ray_z unit_sphere
           else ta = root0 ray_z unit_sphere /\ tb = root1 ray_z unit_sphere))
  /\ (exists t, is_nearest t (included_roots ray_z unit_sphere)
                /\ ivec 0 0 (-1) = point_at ray_z t).
Proof.
  split; [vm_compute; reflexivity|].
  split.
  - apply (proj1 (Intersect_first_is_nearest_included ray_z unit_sphere)).
    vm_compute; reflexivity.
  - apply (proj2 (Intersect_first_is_nearest_included ray_z unit_sphere)
             (ivec 0 0 (-1)) [ivec 0 0 1]).
    vm_compute; reflexivity.
Defined.

(** The facts of the short ray against the unit sphere: the direction
    is not zero, the ray runs through the centre of the sphere at
    [t = 4096], the discriminant is [2^-18], which is positive and not
    above [kEpsilon], the roots are [t0 = 5120] and [t1 = 3072], and the
    one point returned is the point of [t0]. *)
Lemma ray_short_facts :
  nonzero (direction ray_short) = true
  /\ point_at ray_short (lit 4096 0) = center unit_sphere
  /\ discriminant ray_short unit_sphere = lit 1 (-18)
  /\ (discriminant ray_short unit_sphere >? f0)%f32 = true
  /\ (discriminant ray_short unit_sphere >? kEpsilon)%f32 = false
  /\ root0 ray_short unit_sphere = lit 5120 0
  /\ root1 ray_short unit_sphere = lit 3072 0
  /\ point_at ray_short (lit 3072 0) = ivec 0 0 (-1)
  /\ hits ray_short unit_sphere = [ivec 0 0 1].
Proof. repeat split; vm_compute; reflexivity. Qed.

(** The same with a direction of unit length and a small sphere: the
    ray from [(0,0,-2^-8)] enters the sphere of radius [2^-10] at
    [(0,0,-2^-10)] and leaves it at [(0,0,2^-10)]; the discriminant is
    [2^-18] again and only the point where it leaves is returned. *)
Lemma ray_near_facts :
  Length (direction ray_near) = f1
  /\ discriminant ray_near small_sphere = lit 1 (-18)
  /\ root0 ray_near small_sphere = lit 5 (-10)
  /\ root1 ray_near small_sphere = lit 3 (-10)
  /\ point_at ray_near (lit 3 (-10)) = mkVector3 f0 f0 (lit (-1) (-10))
  /\ hits ray_near small_sphere = [mkVector3 f0 f0 (lit 1 (-10))].
Proof. repeat split; vm_compute; reflexivity. Qed.

(** C1 as stated fails: the ray from [(0,0,-4)] with the non-zero
    direction [(0,0,2^-10)] runs through the centre of the unit sphere;
    its roots are 3072 and 5120, both non-negative, the discriminant
    [2^-18] is not above [kEpsilon], and the only point returned is the
    far one, [(0,0,1)], not the nearest, [(0,0,-1)]. *)
Lemma far_root_returned_counterexample :
  ~ spec_first_hit_is_nearest ray_short unit_sphere.
Proof.
  intros H.
  destruct (H eq_refl (ivec 0 0 1) [] eq_refl) as [t [[Hin Hmin] Hp]].
  change (spec_nonneg_roots ray_short unit_sphere)
    with [lit 5120 0; lit 3072 0] in Hin, Hmin.
  destruct Hin as [<-|[<-|[]]].
  - specialize (Hmin (lit 3072 0) (or_intror (or_introl eq_refl))).
    vm_compute in Hmin. discriminate.
  - vm_compute in Hp. discriminate.
Qed.

(** C2 (amended).  [Intersect] returns no point when the discriminant
    is negative, the ray's line staying farther from the centre than
    the radius, and none when neither root is non-negative, the sphere
    lying behind the ray; exactly one point, the one of [t0], when the
    ray is tangent or nearly so, the discriminant lying between 0 and
    [kEpsilon], and the touching point is on the ray, [t0] not being
    negative; two points in ascending order of the root parameter, the
    distance along the ray, when the discriminant exceeds [kEpsilon] and
    both roots are not negative; and the ray from [(0,0,-5)] towards
    [(0,0,1)] meets the unit sphere at [(0,0,-1)] and then at [(0,0,1)],
    at the distances 4 and 6 from its origin. *)
Theorem Intersect_hit_count :
  (forall ray sphere,
      (discriminant ray sphere <? f0)%f32 = true -> hits ray sphere = [])
  /\ (forall ray sphere,
        (root0 ray sphere >=? f0)%f32 = false ->
        (root1 ray sphere >=? f0)%f32 = false ->
        hits ray sphere = [])
  /\ (forall ray sphere,
        (discriminant ray sphere >=? f0)%f32 = true ->
        (discriminant ray sphere <=? kEpsilon)%f32 = true ->
        (root0 ray sphere >=? f0)%f32 = true ->
        hits ray sphere = [point_at ray (root0 ray sphere)])
  /\ (forall ray sphere,
        (discriminant ray sphere >? kEpsilon)%f32 = true ->
        (root0 ray sphere >=? f0)%f32 = true ->
        (root1 ray sphere >=? f0)%f32 = true ->
        exists ta tb,
          hits ray sphere = [point_at ray ta; point_at ray tb]
          /\ (ta <=? tb)%f32 = true
          /\ ((ta = root1 ray sphere /\ tb = root0 ray sphere)
              \/ (ta = root0 ray sphere /\ tb = root1 ray sphere)))
  /\ hits ray_z unit_sphere = [ivec 0 0 (-1); ivec 0 0 1]
  /\ Distance (ivec 0 0 (-1)) (origin ray_z) = lit 4 0
  /\ Distance (ivec 0 0 1) (origin ray_z) = lit 6 0.
Proof.
  split; [|split; [|split; [|split]]].
  - intros ray sphere Hd. rewrite hits_cases, Hd. reflexivity.
  - intros ray sphere H0 H1. rewrite hits_cases, H0, H1.
    destruct (_ <? f0)%f32; [reflexivity|].
    destruct (_ >? kEpsilon)%f32; reflexivity.
  - intros ray sphere Hd He H0. rewrite hits_cases.
    unfold fge in Hd. apply fle_not_flt in Hd. apply fle_not_flt in He.
    unfold fgt. fold (flt kEpsilon (discriminant ray sphere)).
    rewrite Hd, He, H0. reflexivity.
  - intros ray sphere Hd H0 H1. rewrite hits_cases.
    rewrite (above_epsilon_not_negative _ Hd), Hd, H0, H1.
    pose proof (fge_not_nan _ _ H0) as N0. pose proof (fge_not_nan _ _ H1) as N1.
    destruct (root1 ray sphere <? root0 ray sphere)%f32 eqn:Hlt.
    + exists (root1 ray sphere), (root0 ray sphere). auto using flt_fle.
    + exists (root0 ray sphere), (root1 ray sphere). auto 6 using not_flt_fle.
  - repeat split; vm_compute; reflexivity.
Qed.

(** The four cases at concrete rays: a ray that passes the unit sphere
    at distance 5, a ray with the unit sphere behind it, a ray that
    touches the sphere centred at [(1,0,0)] in the origin, and the
    example ray through the unit sphere. *)
Lemma Intersect_hit_count_witness :
  hits ray_far unit_sphere = []
  /\ hits ray_away unit_sphere = []
  /\ hits ray_touch side_sphere = [ivec 0 0 0]
  /\ (exists ta tb,
        hits ray_z unit_sphere = [point_at ray_z ta; point_at ray_z tb]
        /\ (ta <=? tb)%f32 = true
        /\ ((ta = root1 ray_z unit_sphere /\ tb = root0 ray_z unit_sphere)
            \/ (ta = root0 ray_z unit_sphere /\ tb = root1 ray_z unit_sphere))).
Proof.
  destruct Intersect_hit_count as [Hnone [Hbehind [Hone [Htwo _]]]].
  split; [|split; [|split]].
  - apply Hnone. vm_compute; reflexivity.
  - apply Hbehind; vm_compute; reflexivity.
  - change [ivec 0 0 0] with [point_at ray_touch (root0 ray_touch side_sphere)].
    apply Hone; vm_compute; reflexivity.
  - apply Htwo; vm_compute; reflexivity.
Defined.

(** C2 as stated fails: the ray from [(0,0,-4)] with direction
    [(0,0,2^-10)] passes through the unit sphere, through its very
    centre at [t = 4096], and both roots, 3072 and 5120, are not
    negative; the discriminant is [2^-18], not above [kEpsilon], and one
    point is returned, not two. *)
Lemma through_centre_one_hit_counterexample :
  ~ spec_two_hits_when_through ray_short unit_sphere.
Proof.
  intros H.
  destruct H as [p [q Hpq]].
  - reflexivity.
  - exists (lit 4096 0). split; vm_compute; reflexivity.
  - vm_compute; reflexivity.
  - vm_compute; reflexivity.
  - vm_compute in Hpq. discriminate.
Qed.

(** * The hemisphere sampler *)

(** C3.  For the unit normal [(1,0,0)], anti-parallel to the seed
    [(-1,0,0)], the guard of [RandomTangentFrame] keeps the seed, the
    cross product is the zero vector and both frame vectors come out as
    NaN: they have no unit length and no zero dot product with the
    normal.  For the parallel normal [(-1,0,0)] the guard switches to
    [(0,1,0)] and the frame is [(0,1,0)], [(0,0,-1)]. *)
Theorem RandomTangentFrame_antiparallel :
  Length (ivec 1 0 0) = f1
  /\ IsEquivalent (ivec 1 0 0) (ivec (-1) 0 0) kEpsilon = false
  /\ Length (Cross (ivec 1 0 0) (ivec (-1) 0 0)) = f0
  /\ RandomTangentFrame (ivec 1 0 0) = (nan3, nan3)
  /\ SFeqb (Length (fst (RandomTangentFrame (ivec 1 0 0)))) f1 = false
  /\ SFeqb (Length (snd (RandomTangentFrame (ivec 1 0 0)))) f1 = false
  /\ (SFabs (Dot (fst (RandomTangentFrame (ivec 1 0 0))) (ivec 1 0 0))
      <=? kEpsilon)%f32 = false
  /\ (SFabs (Dot (snd (RandomTangentFrame (ivec 1 0 0))) (ivec 1 0 0))
      <=? kEpsilon)%f32 = false
  /\ orthonormal_frame (ivec 1 0 0) = false
  /\ RandomTangentFrame (ivec (-1) 0 0) = (ivec 0 1 0, ivec 0 0 (-1))
  /\ orthonormal_frame (ivec (-1) 0 0) = true.
Proof. repeat split; vm_compute; reflexivity. Qed.

(** Around the other five axis directions the frame is orthonormal. *)
Lemma RandomTangentFrame_axes :
  orthonormal_frame (ivec (-1) 0 0) = true
  /\ orthonormal_frame (ivec 0 1 0) = true
  /\ orthonormal_frame (ivec 0 (-1) 0) = true
  /\ orthonormal_frame (ivec 0 0 1) = true
  /\ orthonormal_frame (ivec 0 0 (-1)) = true.
Proof. repeat split; vm_compute; reflexivity. Qed.

Section Sampler.

Variable cosf sinf : float -> float.

Lemma RandomVector_antiparallel_nan (rand0 rand1 : float) :
  RandomVector cosf sinf (ivec 1 0 0) rand0 rand1 = nan3.
Proof.
  unfold RandomVector.
  change (RandomTangentFrame (ivec 1 0 0)) with (nan3, nan3).
  cbv iota beta. unfold Dot; cbn [x y z nan3].
  rewrite !fmul_nan_r, !fadd_nan_r. reflexivity.
Qed.

(** C4.  With the unit normal [(1,0,0)] the vector [RandomVector]
    returns is NaN in every component whatever the two samples are,
    and the test of the assertion, [Dot(result, normal) >= -epsilon],
    is false. *)
Theorem RandomVector_antiparallel_fails_check (rand0 rand1 : float) :
  Length (ivec 1 0 0) = f1
  /\ all_nan (RandomVector cosf sinf (ivec 1 0 0) rand0 rand1) = true
  /\ (Dot (RandomVector cosf sinf (ivec 1 0 0) rand0 rand1) (ivec 1 0 0)
      >=? (f0 - kEpsilon))%f32 = false.
Proof.
  rewrite RandomVector_antiparallel_nan. repeat split; reflexivity.
Qed.

(** With both samples 0 and the normal [(0,0,1)] the sampled direction
    is the tangent [(-1,0,0)], for any [cosf] and [sinf] that are right
    at 0. *)
Lemma RandomVector_zero_samples :
  cosf (S754_zero false) = f1 ->
  sinf (S754_zero false) = S754_zero false ->
  RandomVector cosf sinf (ivec 0 0 1) f0 f0 = ivec (-1) 0 0.
Proof.
  intros Hcos Hsin. unfold RandomVector.
  change (f2 * kPi * f0)%f32 with (S754_zero false).
  rewrite Hcos, Hsin. vm_compute. reflexivity.
Qed.

End Sampler.

(** * The nearest-hit search *)

Lemma scan_step_index (ray : Ray) (i : Z) (sphere : Sphere) (st : Nearest) :
  nearestSphereIndex (scan_step ray i sphere st) = nearestSphereIndex st
  \/ nearestSphereIndex (scan_step ray i sphere st) = i.
Proof.
  unfold scan_step.
  destruct (Intersect ray sphere (Vector3_splat f0, Vector3_splat f0)) as [n r].
  destruct (n >? 0)%Z; [|left; reflexivity].
  destruct (_ <? _)%f32; [right|left]; reflexivity.
Qed.

(** The index the search ends with is the one it started with or the
    index of a sphere of the scene. *)
Lemma scan_index (ray : Ray) (spheres : list Sphere) :
  forall (i : Z) (st : Nearest),
    nearestSphereIndex (scan ray spheres i st) = nearestSphereIndex st
    \/ (i <= nearestSphereIndex (scan ray spheres i st) < i + Z.of_nat (length spheres))%Z.
Proof.
  induction spheres as [|sphere rest IH]; intros i st; simpl scan.
  - left; reflexivity.
  - destruct (IH (i + 1)%Z (scan_step ray i sphere st)) as [E|R].
    + rewrite E. destruct (scan_step_index ray i sphere st) as [E'|E'].
      * left; exact E'.
      * right. rewrite E'. simpl length. lia.
    + right. simpl length. lia.
Qed.

Lemma nearest_hit_in_range (ray : Ray) (spheres : list Sphere) :
  nearestSphereIndex (nearest_hit ray spheres) <> INT_MAX ->
  exists closestSphere,
    nth_error spheres (Z.to_nat (nearestSphereIndex (nearest_hit ray spheres)))
    = Some closestSphere.
Proof.
  intros Hhit. unfold nearest_hit in *.
  destruct (scan_index ray spheres 0
              (mkNearest INT_MAX FLT_MAX (Vector3_splat FLT_MAX))) as [E|R].
  - contradiction.
  - destruct (nth_error spheres _) as [s|] eqn:En; [exists s; reflexivity|].
    apply nth_error_None in En. lia.
Qed.

Lemma nearest_hit_ray_x :
  nearest_hit ray_x [unit_sphere] = mkNearest 0 (lit 4 0) (ivec 1 0 0).
Proof. vm_compute. reflexivity. Qed.

Lemma nearest_hit_ray_graze :
  nearest_hit ray_graze [big_sphere] = mkNearest 0 f0 (ivec 0 0 1024).
Proof. vm_compute. reflexivity. Qed.

(** * The path integrator *)

Lemma bind_ext {A B} (c1 c2 : M A) (f : A -> M B) (k : nat) :
  c1 k = c2 k -> bind c1 f k = bind c2 f k.
Proof. unfold bind. intros ->. reflexivity. Qed.

Lemma bind_ext_r {A B} (c : M A) (f g : A -> M B) (k : nat) :
  (forall a k', f a k' = g a k') -> bind c f k = bind c g k.
Proof.
  intros H. unfold bind. destruct (c k) as [[a k']|e]; [apply H|reflexivity].
Qed.

Lemma bind_rand {B} (rand_values : nat -> Z) (f : Z -> M B) (k : nat) :
  bind (rand rand_values) f k = f (rand_values k) (S k).
Proof. reflexivity. Qed.

Lemma for_loop_ext {A} (body1 body2 : Z -> A -> M A) (n : nat) :
  (forall i acc k, body1 i acc k = body2 i acc k) ->
  forall i acc k, for_loop n i body1 acc k = for_loop n i body2 acc k.
Proof.
  intros Hbody. induction n as [|n IH]; intros i acc k; simpl.
  - reflexivity.
  - unfold bind. rewrite Hbody.
    destruct (body2 i acc k) as [[acc' k']|e]; [apply IH|reflexivity].
Qed.

Section IntegratorFacts.

Variable cosf sinf : float -> float.
Variable rand_values : nat -> Z.
Variable NDEBUG : bool.

(** C7.  The sky colour is disabled, and on a scene without spheres
    [TracePath] returns [(0,0,0)] for every ray and every bounce
    value, drawing no random number. *)
Theorem TracePath_empty_scene (fuel : nat) (ray : Ray) (bounce : Z) (k : nat) :
  USE_SKY_COLOR = 0%Z
  /\ TracePath cosf sinf rand_values NDEBUG (S fuel) ray [] bounce k
     = Ok (mkVector3 f0 f0 f0, k).
Proof.
  split; [reflexivity|].
  simpl. destruct (bounce =? kMaxBounces)%Z; reflexivity.
Qed.

(** The hit case of [TracePath] in full: the assertion, then the
    recursive call on the continuation ray, then the sum. *)
Lemma TracePath_hit_equation (fuel : nat) (ray : Ray) (spheres : list Sphere)
    (bounce : Z) (k : nat) (closestSphere : Sphere) :
  (bounce < kMaxBounces)%Z ->
  nearestSphereIndex (nearest_hit ray spheres) <> INT_MAX ->
  nth_error spheres (Z.to_nat (nearestSphereIndex (nearest_hit ray spheres)))
  = Some closestSphere ->
  let hitPoint := nearestIntersection (nearest_hit ray spheres) in
  let normal := Normalize (hitPoint - center closestSphere)%vec in
  let rand0 := (float_of_int (rand_values k) / float_of_int (RAND_MAX + 1))%f32 in
  let rand1 := (float_of_int (rand_values (S k)) / float_of_int (RAND_MAX + 1))%f32 in
  let newDir := RandomVector cosf sinf normal rand0 rand1 in
  let continuation := mkRay (hitPoint + normal *: kEpsilon)%vec newDir in
  TracePath cosf sinf rand_values NDEBUG (S fuel) ray spheres bounce k =
  if NDEBUG || (Dot newDir normal >=? (f0 - kEpsilon))%f32 then
    match TracePath cosf sinf rand_values NDEBUG fuel continuation spheres
            (bounce + 1) (S (S k)) with
    | Ok (radiance, k') =>
        Ok ((emissive (material closestSphere)
             + albedo (material closestSphere) * radiance *: Dot normal newDir)%vec, k')
    | Err e => Err e
    end
  else Err AssertionFailed.
Proof.
  intros Hb Hhit Hs hitPoint normal rand0 rand1 newDir continuation.
  cbn [TracePath].
  assert (Hb6 : (bounce =? kMaxBounces)%Z = false) by (apply Z.eqb_neq; lia).
  assert (HbM : (bounce =? INT_MAX)%Z = false)
    by (apply Z.eqb_neq; unfold kMaxBounces, INT_MAX in *; lia).
  rewrite Hb6.
  apply Z.eqb_neq in Hhit. rewrite Hhit, Hs.
  unfold bind, rand, assert, pre_increment.
  fold hitPoint. fold normal. fold rand0. fold rand1. fold newDir.
  rewrite HbM.
  destruct NDEBUG; [reflexivity|].
  destruct (Dot newDir normal >=? (f0 - kEpsilon))%f32; reflexivity.
Qed.

(** C5.  In the hit case, with the bounce below the maximum, the
    radiance [TracePath] returns is
    [emissive + albedo * TracePath(continuation, bounce + 1) * (normal . newDir)],
    where the continuation ray starts at the hit point moved by
    [kEpsilon] along the normal and runs in the sampled direction; the
    two samples are the next two values of [rand()]; an outcome of the
    recursive call that is not a value is passed on. *)
Theorem TracePath_hit_case (fuel : nat) (ray : Ray) (spheres : list Sphere)
    (bounce : Z) (k : nat) :
  (bounce < kMaxBounces)%Z ->
  nearestSphereIndex (nearest_hit ray spheres) <> INT_MAX ->
  exists closestSphere,
    nth_error spheres (Z.to_nat (nearestSphereIndex (nearest_hit ray spheres)))
    = Some closestSphere
    /\ let hitPoint := nearestIntersection (nearest_hit ray spheres) in
       let normal := Normalize (hitPoint - center closestSphere)%vec in
       let rand0 :=
         (float_of_int (rand_values k) / float_of_int (RAND_MAX + 1))%f32 in
       let rand1 :=
         (float_of_int (rand_values (S k)) / float_of_int (RAND_MAX + 1))%f32 in
       let newDir := RandomVector cosf sinf normal rand0 rand1 in
       let continuation := mkRay (hitPoint + normal *: kEpsilon)%vec newDir in
       (NDEBUG = true \/ (Dot newDir normal >=? (f0 - kEpsilon))%f32 = true) ->
       TracePath cosf sinf rand_values NDEBUG (S fuel) ray spheres bounce k =
       match TracePath cosf sinf rand_values NDEBUG fuel continuation spheres
               (bounce + 1) (S (S k)) with
       | Ok (radiance, k') =>
           Ok ((emissive (material closestSphere)
                + albedo (material closestSphere) * radiance
                  *: Dot normal newDir)%vec, k')
       | Err e => Err e
       end.
Proof.
  intros Hb Hhit.
  destruct (nearest_hit_in_range ray spheres Hhit) as [closestSphere Hs].
  exists closestSphere. split; [exact Hs|].
  intros hitPoint normal rand0 rand1 newDir continuation Hcheck.
  rewrite (TracePath_hit_equation fuel ray spheres bounce k closestSphere Hb Hhit Hs).
  fold hitPoint. fold normal. fold rand0. fold rand1. fold newDir. fold continuation.
  destruct Hcheck as [-> | ->]; [|rewrite orb_true_r]; reflexivity.
Qed.

End IntegratorFacts.

(** The hit case at the example ray and the unit sphere, bounce 0: the
    continuation ray misses, and the radiance is the emissive value
    [(10,10,10)]. *)
Lemma TracePath_hit_case_witness :
  exists closestSphere,
    nth_error [unit_sphere]
      (Z.to_nat (nearestSphereIndex (nearest_hit ray_z [unit_sphere])))
    = Some closestSphere
    /\ TracePath cosf_at_zero sinf_at_zero rand_zero false 7 ray_z [unit_sphere] 0 0
       = Ok (ivec 10 10 10, 2%nat).
Proof.
  destruct (TracePath_hit_case cosf_at_zero sinf_at_zero rand_zero false 6
              ray_z [unit_sphere] 0 0) as [closestSphere [Hs Heq]].
  - reflexivity.
  - vm_compute. discriminate.
  - exists closestSphere. split; [exact Hs|].
    vm_compute in Hs. injection Hs as <-.
    rewrite Heq.
    + vm_compute. reflexivity.
    + right. vm_compute. reflexivity.
Defined.

(** ** A sphere that only emits *)

(** A zero albedo removes the recursive term numerically, unless the
    term is NaN (a zero times an infinity or a NaN). *)
Lemma zero_albedo_term (s : bool) (e L c : float) :
  is_nan (e + S754_zero s * L * c)%f32 = false ->
  SFeqb (e + S754_zero s * L * c)%f32 e = true.
Proof.
  unfold SFeqb.
  destruct L as [sl|sl| |sl ml el]; try (destruct e; simpl; discriminate);
    destruct c as [sc|sc| |sc mc ec]; try (destruct e; simpl; discriminate);
    destruct e as [se|se| |se me ee]; try (simpl; discriminate); intros _;
    try (destruct s, sl, sc, se; reflexivity);
    try (destruct s, sl, sc; simpl; reflexivity);
    try (destruct s, sl, sc; simpl; rewrite SFcompare_refl; reflexivity);
    try (destruct s, sl, sc; cbn; rewrite Z.compare_refl, Pos.compare_cont_refl;
         destruct se; reflexivity).
Qed.

Section SingleEmitter.

Variable cosf sinf : float -> float.
Variable rand_values : nat -> Z.

(** C6.  The scene is the unit sphere alone, with albedo [(0,0,0)] and
    emissive [(10,10,10)]; the primary ray from [(5,0,0)] towards
    [(-1,0,0)] hits it at [(1,0,0)], where the normal is [(1,0,0)].
    The build with assertions aborts there; the build without them
    returns NaN in every component.  Neither returns the emissive
    value. *)
Theorem TracePath_emissive_only_antiparallel (fuel k : nat) :
  albedo (material unit_sphere) = ivec 0 0 0
  /\ emissive (material unit_sphere) = ivec 10 10 10
  /\ hits ray_x unit_sphere = [ivec 1 0 0; ivec (-1) 0 0]
  /\ TracePath cosf sinf rand_values false (S fuel) ray_x [unit_sphere] 0 k
     = Err AssertionFailed
  /\ TracePath cosf sinf rand_values true (S (S fuel)) ray_x [unit_sphere] 0 k
     = Ok (nan3, S (S k)).
Proof.
  split; [reflexivity|]. split; [reflexivity|]. split; [vm_compute; reflexivity|].
  split.
  - cbn [TracePath]. rewrite nearest_hit_ray_x.
    cbn [Z.eqb kMaxBounces nearestSphereIndex INT_MAX Z.to_nat nth_error
         nearestIntersection].
    change (Normalize (ivec 1 0 0 - center unit_sphere)%vec) with (ivec 1 0 0).
    unfold bind, rand.
    rewrite RandomVector_antiparallel_nan. reflexivity.
  - cbn [TracePath]. rewrite nearest_hit_ray_x.
    cbn [Z.eqb kMaxBounces nearestSphereIndex INT_MAX Z.to_nat nth_error
         nearestIntersection].
    change (Normalize (ivec 1 0 0 - center unit_sphere)%vec) with (ivec 1 0 0).
    unfold bind, rand.
    rewrite RandomVector_antiparallel_nan. vm_compute. reflexivity.
Qed.

(** What does hold for a scene of one sphere with zero albedo: a
    radiance that a primary ray's hit returns and that has no NaN
    component is numerically the emissive value. *)
Lemma TracePath_emissive_only_when_defined (NDEBUG : bool) (fuel : nat) (ray : Ray)
    (sphere : Sphere) (k k' : nat) (v : Vector3) (sx sy sz : bool) :
  albedo (material sphere) = mkVector3 (S754_zero sx) (S754_zero sy) (S754_zero sz) ->
  nearestSphereIndex (nearest_hit ray [sphere]) <> INT_MAX ->
  TracePath cosf sinf rand_values NDEBUG (S fuel) ray [sphere] 0 k = Ok (v, k') ->
  is_nan (x v) || is_nan (y v) || is_nan (z v) = false ->
  veqb v (emissive (material sphere)) = true.
Proof.
  intros Ha Hhit Hrun Hnan.
  destruct (nearest_hit_in_range ray [sphere] Hhit) as [closestSphere Hs].
  assert (closestSphere = sphere) as ->.
  { destruct (Z.to_nat (nearestSphereIndex (nearest_hit ray [sphere]))) as [|[|n]];
      simpl in Hs; congruence. }
  rewrite (TracePath_hit_equation cosf sinf rand_values NDEBUG fuel ray [sphere]
             0 k sphere) in Hrun by (unfold kMaxBounces; lia || assumption).
  cbv zeta in Hrun.
  destruct (NDEBUG || _); [|discriminate].
  destruct (TracePath cosf sinf rand_values NDEBUG fuel _ [sphere] (0 + 1) (S (S k)))
    as [[radiance k'']|e]; [|discriminate].
  injection Hrun as <- _.
  rewrite Ha in *. unfold veqb, vadd, vmul, vscale in *. cbn [x y z] in *.
  apply orb_false_iff in Hnan as [Hnan Hz].
  apply orb_false_iff in Hnan as [Hx Hy].
  rewrite !zero_albedo_term by assumption. reflexivity.
Qed.

End SingleEmitter.

(** ** Depth of the recursion *)

Section Termination.

Variable cosf sinf : float -> float.
Variable rand_values : nat -> Z.
Variable NDEBUG : bool.

(** From a bounce not above the limit, more nested calls than the
    bounces that are left are enough. *)
Lemma TracePath_enough_fuel (fuel : nat) :
  forall (ray : Ray) (spheres : list Sphere) (bounce : Z) (k : nat),
    (bounce <= kMaxBounces)%Z ->
    (Z.to_nat (kMaxBounces - bounce) < fuel)%nat ->
    returns_or_aborts
      (TracePath cosf sinf rand_values NDEBUG fuel ray spheres bounce k).
Proof.
  induction fuel as [|fuel IH]; intros ray spheres bounce k Hb Hf; [lia|].
  cbn [TracePath].
  destruct (bounce =? kMaxBounces)%Z eqn:Hb6; [left; eexists; reflexivity|].
  apply Z.eqb_neq in Hb6.
  destruct (nearestSphereIndex (nearest_hit ray spheres) =? INT_MAX)%Z eqn:Hhit.
  - cbn. left; eexists; reflexivity.
  - apply Z.eqb_neq in Hhit.
    destruct (nearest_hit_in_range ray spheres Hhit) as [closestSphere ->].
    unfold bind, rand, assert, pre_increment.
    assert (HbM : (bounce =? INT_MAX)%Z = false)
      by (apply Z.eqb_neq; unfold kMaxBounces, INT_MAX in *; lia).
    rewrite HbM.
    destruct NDEBUG; [|destruct (_ >=? _)%f32]; cbn [ret fail];
      try (right; reflexivity);
      match goal with
      | |- context [TracePath _ _ _ _ fuel ?r spheres (bounce + 1)%Z ?k'] =>
          destruct (IH r spheres (bounce + 1)%Z k') as [[[v k''] ->] | ->];
          [lia | lia | left; eexists; reflexivity | right; reflexivity]
      end.
Qed.

(** C8 (amended).  From a starting bounce between 0 and [kMaxBounces]
    the recursion stays within the budget: [kMaxBounces + 1 - bounce]
    nested calls are enough for any ray and any scene, so the
    [kMaxBounces + 1] calls of the budget are, and [TracePath] returns
    a radiance or aborts on its assertion. *)
Theorem TracePath_depth_bounded (ray : Ray) (spheres : list Sphere)
    (bounce : Z) (k : nat) :
  (0 <= bounce <= kMaxBounces)%Z ->
  returns_or_aborts
    (TracePath cosf sinf rand_values NDEBUG
       (S (Z.to_nat (kMaxBounces - bounce))) ray spheres bounce k)
  /\ returns_or_aborts
       (TracePath cosf sinf rand_values NDEBUG
          (S (Z.to_nat kMaxBounces)) ray spheres bounce k)
  /\ spec_depth_bounded cosf sinf rand_values NDEBUG ray spheres bounce k.
Proof.
  intros Hb.
  assert (H7 : returns_or_aborts
                 (TracePath cosf sinf rand_values NDEBUG
                    (S (Z.to_nat kMaxBounces)) ray spheres bounce k))
    by (apply TracePath_enough_fuel; unfold kMaxBounces in *; lia).
  split; [apply TracePath_enough_fuel; lia|].
  split; [exact H7|].
  unfold spec_depth_bounded.
  destruct H7 as [[a ->] | ->]; discriminate.
Qed.

End Termination.

(** The primary ray from the centre of the big sphere, bounce 0. *)
Lemma TracePath_depth_bounded_witness :
  (0 <= 0 <= kMaxBounces)%Z
  /\ spec_depth_bounded cosf_at_zero sinf_at_zero rand_zero false
       ray_centre [big_sphere] 0 0.
Proof.
  split; [unfold kMaxBounces; lia|].
  apply (TracePath_depth_bounded cosf_at_zero sinf_at_zero rand_zero false
           ray_centre [big_sphere] 0 0).
  unfold kMaxBounces; lia.
Defined.

(** C8 as stated fails for a starting bounce above the limit: from
    bounce 7 inside the sphere of radius 1024 (both samples 0) every
    continuation ray hits the sphere again at [(0,0,1024)], the test
    [bounce == kMaxBounces] is never true, and the seven nested calls of
    the budget do not reach an end. *)
Lemma bounce_above_limit_counterexample :
  ~ spec_depth_bounded cosf_at_zero sinf_at_zero rand_zero false
      ray_centre [big_sphere] 7 0.
Proof.
  intros H. apply H. vm_compute. reflexivity.
Qed.

Section Unbounded.

Variable cosf sinf : float -> float.
Variable NDEBUG : bool.
Hypothesis cosf_zero : cosf (S754_zero false) = f1.
Hypothesis sinf_zero : sinf (S754_zero false) = S754_zero false.

(** Above the limit no number of nested calls is enough, as long as the
    [int] bounce does not overflow: the grazing ray reproduces itself. *)
Lemma TracePath_graze_unbounded (fuel : nat) :
  forall (bounce : Z) (k : nat),
    (kMaxBounces < bounce)%Z ->
    (bounce + Z.of_nat fuel <= INT_MAX)%Z ->
    TracePath cosf sinf rand_zero NDEBUG fuel ray_graze [big_sphere] bounce k
    = Err OutOfFuel.
Proof.
  induction fuel as [|fuel IH]; intros bounce k Hb Hf; [reflexivity|].
  cbn [TracePath].
  assert (Hb6 : (bounce =? kMaxBounces)%Z = false) by (apply Z.eqb_neq; lia).
  assert (HbM : (bounce =? INT_MAX)%Z = false) by (apply Z.eqb_neq; lia).
  rewrite Hb6, nearest_hit_ray_graze.
  cbn [Z.eqb nearestSphereIndex INT_MAX Z.to_nat nth_error nearestIntersection].
  change (Normalize (ivec 0 0 1024 - center big_sphere)%vec) with (ivec 0 0 1).
  unfold bind, rand.
  change (float_of_int (rand_zero k) / float_of_int (RAND_MAX + 1))%f32 with f0.
  change (float_of_int (rand_zero (S k)) / float_of_int (RAND_MAX + 1))%f32 with f0.
  rewrite (RandomVector_zero_samples cosf sinf cosf_zero sinf_zero).
  change (ivec 0 0 1024 + ivec 0 0 1 *: kEpsilon)%vec with (ivec 0 0 1024).
  fold ray_graze.
  change (Dot (ivec (-1) 0 0) (ivec 0 0 1) >=? f0 - kEpsilon)%f32 with true.
  unfold assert, pre_increment. rewrite HbM.
  replace (if NDEBUG then ret tt else ret tt) with (@ret unit tt)
    by (destruct NDEBUG; reflexivity).
  cbn [ret]. rewrite IH by lia. reflexivity.
Qed.

Lemma TracePath_centre_unbounded (fuel k : nat) :
  (7 + Z.of_nat fuel <= INT_MAX)%Z ->
  TracePath cosf sinf rand_zero NDEBUG fuel ray_centre [big_sphere] 7 k
  = Err OutOfFuel.
Proof.
  destruct fuel as [|fuel]; intros Hf; [reflexivity|].
  cbn [TracePath].
  change (7 =? kMaxBounces)%Z with false. cbv iota.
  change (nearest_hit ray_centre [big_sphere])
    with (mkNearest 0 (lit 1024 0) (ivec 0 0 1024)).
  cbn [Z.eqb kMaxBounces nearestSphereIndex INT_MAX Z.to_nat nth_error
       nearestIntersection].
  change (Normalize (ivec 0 0 1024 - center big_sphere)%vec) with (ivec 0 0 1).
  unfold bind, rand.
  change (float_of_int (rand_zero k) / float_of_int (RAND_MAX + 1))%f32 with f0.
  change (float_of_int (rand_zero (S k)) / float_of_int (RAND_MAX + 1))%f32 with f0.
  rewrite (RandomVector_zero_samples cosf sinf cosf_zero sinf_zero).
  change (ivec 0 0 1024 + ivec 0 0 1 *: kEpsilon)%vec with (ivec 0 0 1024).
  fold ray_graze.
  change (Dot (ivec (-1) 0 0) (ivec 0 0 1) >=? f0 - kEpsilon)%f32 with true.
  unfold assert, pre_increment.
  change (7 =? INT_MAX)%Z with false. cbv iota.
  replace (if NDEBUG then ret tt else ret tt) with (@ret unit tt)
    by (destruct NDEBUG; reflexivity).
  cbn [ret].
  rewrite TracePath_graze_unbounded by (unfold kMaxBounces; lia). reflexivity.
Qed.

End Unbounded.

(** * Further facts about binary32 *)

Lemma binary_round_aux_sign (sx : bool) (m e : Z) (l : location) :
  has_sign sx (binary_round_aux prec emax sx m e l).
Proof.
  unfold binary_round_aux.
  destruct (shr_fexp prec emax m e l) as [mrs' e'].
  destruct (shr_fexp prec emax _ e' loc_Exact) as [mrs'' e''].
  destruct (shr_m mrs'') as [|p|p]; simpl; try reflexivity.
  destruct (Z.leb _ _); simpl; reflexivity.
Qed.

(** A square root is never below zero. *)
Lemma sqrtf_not_negative (v : float) : (sqrtf v <? f0)%f32 = false.
Proof.
  unfold sqrtf, SFsqrt.
  destruct v as [[|]|[|]| |[|] m e]; try reflexivity.
  destruct (SFsqrt_core_binary prec emax (Z.pos m) e) as [[mz ez] lz].
  pose proof (binary_round_aux_sign false mz ez lz) as H.
  destruct (binary_round_aux prec emax false mz ez lz); simpl in H; subst; reflexivity.
Qed.

Lemma fmul_comm (a b : float) : (a * b)%f32 = (b * a)%f32.
Proof.
  unfold fmul, SFmul.
  destruct a as [sa|sa| |sa ma ea], b as [sb|sb| |sb mb eb];
    try reflexivity; try (rewrite (xorb_comm sa sb); reflexivity).
  rewrite (xorb_comm sa sb), (Pos.mul_comm ma mb), (Z.add_comm ea eb). reflexivity.
Qed.

Lemma fsub_nan_r (a : float) : (a - S754_nan)%f32 = S754_nan.
Proof. destruct a; reflexivity. Qed.

Lemma fdiv_nan_l (a : float) : (S754_nan / a)%f32 = S754_nan.
Proof. reflexivity. Qed.

Lemma flt_key (a b : float) :
  (a <? b)%f32 = true <->
  is_nan a = false /\ is_nan b = false /\ key_lt (order_key a) (order_key b).
Proof.
  unfold flt, SFltb.
  destruct a as [sa|[|]| |[|] ma ea], b as [sb|[|]| |[|] mb eb];
    simpl; try (split; [discriminate | intros (? & ? & ?); lia || discriminate]);
    try (split; [intros _; repeat split; lia | reflexivity]).
  - change (PosDef.Pos.compare_cont Eq ma mb) with (Zpos ma ?= Zpos mb)%Z.
    destruct (Z.compare_spec ea eb), (Z.compare_spec (Zpos ma) (Zpos mb)); simpl;
      split; try discriminate; try (intros _; repeat split; lia);
      try (intros (_ & _ & ?); lia); try reflexivity.
  - change (PosDef.Pos.compare_cont Eq ma mb) with (Zpos ma ?= Zpos mb)%Z.
    destruct (Z.compare_spec ea eb), (Z.compare_spec (Zpos ma) (Zpos mb)); simpl;
      split; try discriminate; try (intros _; repeat split; lia);
      try (intros (_ & _ & ?); lia); try reflexivity.
Qed.

Lemma fle_key (a b : float) :
  (a <=? b)%f32 = true <->
  is_nan a = false /\ is_nan b = false /\ key_le (order_key a) (order_key b).
Proof.
  unfold fle, SFleb, key_le.
  destruct a as [sa|[|]| |[|] ma ea], b as [sb|[|]| |[|] mb eb];
    simpl;
    try (split; [discriminate
                | intros (? & ? & [?|?]); (lia || discriminate || congruence)]);
    try (split; [intros _; repeat split; (left; lia) || (right; reflexivity) | reflexivity]).
  - change (PosDef.Pos.compare_cont Eq ma mb) with (Zpos ma ?= Zpos mb)%Z.
    destruct (Z.compare_spec ea eb), (Z.compare_spec (Zpos ma) (Zpos mb)); simpl;
      split; try discriminate;
      try (intros _; repeat split; (left; lia) || (right; congruence));
      try (intros (_ & _ & [Hk|Hk]); (lia || (injection Hk; lia)));
      try reflexivity.
  - change (PosDef.Pos.compare_cont Eq ma mb) with (Zpos ma ?= Zpos mb)%Z.
    destruct (Z.compare_spec ea eb), (Z.compare_spec (Zpos ma) (Zpos mb)); simpl;
      split; try discriminate;
      try (intros _; repeat split; (left; lia) || (right; congruence));
      try (intros (_ & _ & [Hk|Hk]); (lia || (injection Hk; lia)));
      try reflexivity.
Qed.

Lemma flt_irrefl (a : float) : (a <? a)%f32 = false.
Proof.
  destruct (a <? a)%f32 eqn:E; [|reflexivity].
  apply flt_key in E. destruct E as (_ & _ & E).
  destruct (order_key a) as [[k1 k2] k3]. simpl in E. lia.
Qed.

Lemma flt_trans (a b c : float) :
  (a <? b)%f32 = true -> (b <? c)%f32 = true -> (a <? c)%f32 = true.
Proof.
  rewrite !flt_key. intros (Na & Nb & Hab) (_ & Nc & Hbc). repeat split; trivial.
  destruct (order_key a) as [[a1 a2] a3], (order_key b) as [[b1 b2] b3],
    (order_key c) as [[c1 c2] c3]. simpl in *. lia.
Qed.

Lemma fle_flt_trans (a b c : float) :
  (a <=? b)%f32 = true -> (b <? c)%f32 = true -> (a <? c)%f32 = true.
Proof.
  rewrite fle_key, !flt_key. intros (Na & Nb & [Hab|Hab]) (_ & Nc & Hbc);
    repeat split; trivial.
  - destruct (order_key a) as [[a1 a2] a3], (order_key b) as [[b1 b2] b3],
      (order_key c) as [[c1 c2] c3]. simpl in *. lia.
  - rewrite Hab. exact Hbc.
Qed.

Lemma flt_fle_trans (a b c : float) :
  (a <? b)%f32 = true -> (b <=? c)%f32 = true -> (a <? c)%f32 = true.
Proof.
  rewrite fle_key, !flt_key. intros (Na & Nb & Hab) (_ & Nc & [Hbc|Hbc]);
    repeat split; trivial.
  - destruct (order_key a) as [[a1 a2] a3], (order_key b) as [[b1 b2] b3],
      (order_key c) as [[c1 c2] c3]. simpl in *. lia.
  - rewrite <- Hbc. exact Hab.
Qed.

Lemma binary_round_aux_opp (sx : bool) (m e : Z) (l : location) :
  binary_round_aux prec emax (negb sx) m e l
  = SFopp (binary_round_aux prec emax sx m e l).
Proof.
  unfold binary_round_aux.
  destruct (shr_fexp prec emax m e l) as [mrs' e'].
  destruct (shr_fexp prec emax _ e' loc_Exact) as [mrs'' e''].
  destruct (shr_m mrs'') as [|p|p]; try reflexivity.
  destruct (Z.leb _ _); reflexivity.
Qed.

Lemma binary_round_opp (sx : bool) (p : positive) (e : Z) :
  binary_round prec emax (negb sx) p e = SFopp (binary_round prec emax sx p e).
Proof.
  unfold binary_round. destruct (shl_align p e _) as [mz ez].
  apply binary_round_aux_opp.
Qed.

Lemma binary_normalize_opp (m e : Z) :
  m <> 0%Z ->
  binary_normalize prec emax (- m) e false
  = SFopp (binary_normalize prec emax m e false).
Proof.
  destruct m as [|p|p]; intros H; [contradiction| |].
  - exact (binary_round_opp false p e).
  - change (binary_round prec emax false p e
            = SFopp (binary_round prec emax (negb false) p e)).
    rewrite binary_round_opp.
    destruct (binary_round prec emax false p e) as [[|]|[|]| |[|] ? ?]; reflexivity.
Qed.

(** [b - a] is the opposite of [a - b], or both are [+0]. *)
Lemma fsub_swap (a b : float) :
  (b - a)%f32 = SFopp (a - b)%f32
  \/ ((a - b)%f32 = S754_zero false /\ (b - a)%f32 = S754_zero false).
Proof.
  unfold fsub, SFsub.
  destruct a as [sa|sa| |sa ma ea], b as [sb|sb| |sb mb eb];
    try (left; reflexivity);
    try (destruct sa, sb; (left; reflexivity) || (right; split; reflexivity)).
  rewrite (Z.min_comm eb ea).
  set (A := cond_Zopp sa (Z.pos (fst (shl_align ma ea (Z.min ea eb))))).
  set (B := cond_Zopp sb (Z.pos (fst (shl_align mb eb (Z.min ea eb))))).
  destruct (Z.eq_dec (A - B) 0) as [E|E].
  - right. replace (B - A)%Z with 0%Z by lia. rewrite E. split; reflexivity.
  - left. replace (B - A)%Z with (- (A - B))%Z by lia.
    apply binary_normalize_opp, E.
Qed.

Lemma fmul_opp_opp (v : float) : (SFopp v * SFopp v)%f32 = (v * v)%f32.
Proof. destruct v as [[|]|[|]| |[|] m e]; reflexivity. Qed.

Lemma fsub_swap_square (a b : float) :
  ((b - a) * (b - a))%f32 = ((a - b) * (a - b))%f32.
Proof.
  destruct (fsub_swap a b) as [E|[E1 E2]].
  - rewrite E. apply fmul_opp_opp.
  - rewrite E1, E2. reflexivity.
Qed.

Lemma fsub_diag (v : float) :
  (v - v)%f32 = if is_finite v then S754_zero false else S754_nan.
Proof.
  unfold fsub, SFsub. destruct v as [[|]|[|]| |s m e]; try reflexivity.
  rewrite Z.sub_diag. reflexivity.
Qed.

Lemma fsub_zero_r (v : float) : (v - f0)%f32 = v.
Proof. destruct v as [[|]|[|]| |s m e]; reflexivity. Qed.

(** * Vector algebra and scalar helpers *)

(** X1.  [Saturate] clamps: a NaN comes back as it is, any other value
    comes back inside [0, 1], and a second [Saturate] changes nothing. *)
Theorem Saturate_range (v : float) :
  (if is_nan v then is_nan (Saturate v) = true
   else (f0 <=? Saturate v)%f32 = true /\ (Saturate v <=? f1)%f32 = true)
  /\ Saturate (Saturate v) = Saturate v.
Proof.
  unfold Saturate.
  destruct (is_nan v) eqn:N.
  - destruct v; try discriminate. split; reflexivity.
  - destruct (v <? f0)%f32 eqn:L0; [repeat split; reflexivity|].
    destruct (v >? f1)%f32 eqn:G1; [repeat split; reflexivity|].
    rewrite L0, G1. repeat split.
    + apply not_flt_fle; trivial.
    + apply not_flt_fle; trivial.
Qed.

(** X2.  [Max] returns one of its arguments.  When neither is NaN it is
    not below either of them.  With a NaN it returns its second
    argument, whichever of the two the NaN is. *)
Theorem Max_bounds (a b : float) :
  (Max a b = a \/ Max a b = b)
  /\ (if is_nan a || is_nan b then Max a b = b
      else (a <=? Max a b)%f32 = true /\ (b <=? Max a b)%f32 = true).
Proof.
  unfold Max. split.
  - destruct (a >? b)%f32; auto.
  - destruct (is_nan a) eqn:Na; [destruct a; try discriminate; destruct b; reflexivity|].
    destruct (is_nan b) eqn:Nb;
      [destruct b; try discriminate; destruct a; reflexivity|].
    cbn [orb]. destruct (a >? b)%f32 eqn:G.
    + split; [apply fle_refl, Na | apply flt_fle, G].
    + split; [apply not_flt_fle; trivial | apply fle_refl, Nb].
Qed.

(** X3.  [Dot] does not depend on the order of its arguments, bit for
    bit: the value [TracePath] checks in its assertion,
    [newDir.Dot(normal)], is the cosine factor [normal.Dot(newDir)] of
    the radiance it returns. *)
Theorem Dot_commutative (a b : Vector3) : Dot a b = Dot b a.
Proof.
  unfold Dot.
  rewrite (fmul_comm (x a)), (fmul_comm (y a)), (fmul_comm (z a)).
  reflexivity.
Qed.

(** X4.  [Length] is never negative (it may be NaN), so [IsEquivalent]
    is false for every pair of vectors when [maxDelta] is zero or
    negative. *)
Theorem Length_not_negative (a b : Vector3) (maxDelta : float) :
  (Length a <? f0)%f32 = false
  /\ (Distance a b <? f0)%f32 = false
  /\ ((maxDelta <=? f0)%f32 = true -> IsEquivalent a b maxDelta = false).
Proof.
  split; [apply sqrtf_not_negative|].
  split; [apply sqrtf_not_negative|].
  intros Hm. unfold IsEquivalent.
  destruct (Length (b - a)%vec <? maxDelta)%f32 eqn:E; [|reflexivity].
  pose proof (flt_fle_trans _ _ _ E Hm) as H.
  unfold Length in H. rewrite sqrtf_not_negative in H. discriminate.
Qed.

Lemma Length_vsub_swap (a b : Vector3) : Length (b - a)%vec = Length (a - b)%vec.
Proof.
  unfold Length, Dot, vsub. cbn [x y z].
  rewrite (fsub_swap_square (x a)), (fsub_swap_square (y a)), (fsub_swap_square (z a)).
  reflexivity.
Qed.

(** X5.  [Distance] and [IsEquivalent] are symmetric, bit for bit. *)
Theorem IsEquivalent_symmetric (a b : Vector3) (maxDelta : float) :
  Distance a b = Distance b a
  /\ IsEquivalent a b maxDelta = IsEquivalent b a maxDelta.
Proof.
  unfold Distance, IsEquivalent. split.
  - apply Length_vsub_swap.
  - rewrite (Length_vsub_swap a b). reflexivity.
Qed.

Lemma Length_diag (a : Vector3) :
  Length (a - a)%vec = if finite_vec a then S754_zero false else S754_nan.
Proof.
  unfold Length, Dot, vsub, finite_vec. cbn [x y z].
  rewrite !fsub_diag.
  destruct (is_finite (x a)), (is_finite (y a)), (is_finite (z a)); reflexivity.
Qed.

(** X6.  A vector is equivalent to itself, within [kEpsilon], exactly
    when its three components are finite; with an infinite or NaN
    component it is not, and its distance from itself is NaN. *)
Theorem IsEquivalent_reflexive_iff_finite (a : Vector3) :
  IsEquivalent a a kEpsilon = finite_vec a
  /\ Distance a a = (if finite_vec a then f0 else S754_nan).
Proof.
  unfold IsEquivalent, Distance. rewrite Length_diag.
  destruct (finite_vec a); split; reflexivity.
Qed.

(** X7.  [Normalize] of a zero vector, whatever the signs of the zeros,
    divides by a zero length and returns NaN in every component; so
    does [Normalize] of a vector with a NaN component. *)
Theorem Normalize_degenerate (a : Vector3) :
  veqb a (Vector3_splat f0) || has_nan a = true -> Normalize a = nan3.
Proof.
  destruct a as [ax ay az]. unfold veqb, has_nan. cbn [x y z Vector3_splat].
  intros H. apply orb_true_iff in H as [H|H].
  - apply andb_true_iff in H as [H Hz]. apply andb_true_iff in H as [Hx Hy].
    destruct ax as [[|]|[|]| |[|] ? ?]; try discriminate;
      destruct ay as [[|]|[|]| |[|] ? ?]; try discriminate;
      destruct az as [[|]|[|]| |[|] ? ?]; try discriminate; reflexivity.
  - assert (HL : Length (mkVector3 ax ay az) = S754_nan).
    { unfold Length, Dot. cbn [x y z].
      destruct ax; [| |rewrite fmul_nan_r; reflexivity|];
        (destruct ay; [| |rewrite fmul_nan_r, fadd_nan_r; reflexivity|]);
        (destruct az; try discriminate; rewrite fmul_nan_r, fadd_nan_r; reflexivity). }
    unfold Normalize. rewrite HL. unfold vscale. cbn [x y z].
    change (f1 / S754_nan)%f32 with S754_nan. rewrite !fmul_nan_r. reflexivity.
Qed.

Lemma Normalize_degenerate_witness :
  Normalize (mkVector3 (S754_zero true) f0 f0) = nan3
  /\ Normalize (mkVector3 f1 S754_nan f0) = nan3.
Proof.
  split; apply Normalize_degenerate; reflexivity.
Defined.

(** * More on the intersection solver *)

(** X8.  [Intersect] returns 0, 1 or 2; it writes only the entries it
    counts, leaving the whole array alone when it returns 0 and the
    second entry alone when it returns 1; and every point it counts is
    the point of the ray at [t0] or [t1], at a parameter that is not
    negative. *)
Theorem Intersect_count_and_writes (ray : Ray) (sphere : Sphere) (result : array2) :
  let '(n, r) := Intersect ray sphere result in
  (0 <= n <= 2)%Z
  /\ (n = 0%Z -> r = result)
  /\ (n = 1%Z -> snd r = snd result)
  /\ forall p, In p (firstn (Z.to_nat n) [fst r; snd r]) ->
       exists t, (t = root0 ray sphere \/ t = root1 ray sphere)
                 /\ (t >=? f0)%f32 = true /\ p = point_at ray t.
Proof.
  unfold Intersect.
  fold (quad_a ray) (quad_b ray sphere) (quad_c ray sphere).
  fold (discriminant ray sphere). fold (root0 ray sphere) (root1 ray sphere).
  fold (point_at ray (root0 ray sphere)) (point_at ray (root1 ray sphere)).
  destruct (discriminant ray sphere <? f0)%f32;
    [repeat split; try lia; intros p []|].
  destruct (root0 ray sphere >=? f0)%f32 eqn:H0;
    destruct (discriminant ray sphere >? kEpsilon)%f32;
    try (destruct (root1 ray sphere >=? f0)%f32 eqn:H1);
    try (destruct (root1 ray sphere <? root0 ray sphere)%f32);
    cbn [andb aset aswap fst snd Z.eqb Z.add Z.to_nat Pos.to_nat Pos.iter_op
         Init.Nat.add firstn];
    (split; [lia|]); (split; [intros E; try discriminate E; reflexivity|]);
    (split; [intros E; try discriminate E; reflexivity|]);
    intros p Hin; simpl in Hin;
    repeat match goal with
           | H : _ \/ _ |- _ => destruct H as [<-|H]
           | H : False |- _ => destruct H
           end;
    first [ exists (root0 ray sphere); now auto
          | exists (root1 ray sphere); now auto ].
Qed.

Lemma discriminant_nan_no_hits (ray : Ray) (sphere : Sphere) :
  is_nan (discriminant ray sphere) = true -> hits ray sphere = [].
Proof.
  intros H. rewrite hits_cases. unfold root0.
  destruct (discriminant ray sphere); try discriminate.
  change (sqrtf S754_nan) with S754_nan. rewrite fadd_nan_r. reflexivity.
Qed.

Lemma Dot_nan_l (a b : Vector3) : has_nan a = true -> Dot a b = S754_nan.
Proof.
  destruct a as [ax ay az], b as [bx by' bz]. unfold has_nan, Dot. cbn [x y z].
  intros H.
  destruct ax; [| |reflexivity|];
    (destruct ay; [| |rewrite fadd_nan_r; reflexivity|]);
    (destruct az; try discriminate H; rewrite fadd_nan_r; reflexivity).
Qed.

Lemma Dot_nan_r (a b : Vector3) : has_nan b = true -> Dot a b = S754_nan.
Proof.
  intros H. unfold Dot.
  rewrite (fmul_comm (x a)), (fmul_comm (y a)), (fmul_comm (z a)).
  exact (Dot_nan_l b a H).
Qed.

Lemma vsub_nan (a b : Vector3) :
  has_nan a || has_nan b = true -> has_nan (a - b)%vec = true.
Proof.
  destruct a as [ax ay az], b as [bx by' bz]. unfold has_nan, vsub. cbn [x y z].
  intros H.
  repeat match goal with
         | H : (_ || _)%bool = true |- _ => apply orb_true_iff in H as [H|H]
         end;
    match goal with
    | H : is_nan ?v = true |- _ => destruct v; try discriminate H
    end;
    rewrite ?fsub_nan_r; cbn [fsub SFsub is_nan orb]; rewrite ?orb_true_r; reflexivity.
Qed.

(** X9.  A NaN anywhere in the ray or the sphere (origin, direction,
    centre or radius) makes the discriminant NaN, and [Intersect]
    returns no point. *)
Theorem Intersect_nan_no_hits (ray : Ray) (sphere : Sphere) :
  has_nan (origin ray) || has_nan (direction ray)
  || has_nan (center sphere) || is_nan (radius sphere) = true ->
  is_nan (discriminant ray sphere) = true /\ hits ray sphere = [].
Proof.
  intros H.
  assert (D : is_nan (discriminant ray sphere) = true).
  { unfold discriminant, quad_a, quad_b, quad_c.
    apply orb_true_iff in H as [H|H]; [apply orb_true_iff in H as [H|H]|].
    - apply orb_true_iff in H as [H|H].
      + rewrite (Dot_nan_l (origin ray - center sphere)%vec)
          by (apply vsub_nan; rewrite H; reflexivity).
        cbn [fsub SFsub]. rewrite fmul_nan_r, fsub_nan_r. reflexivity.
      + rewrite (Dot_nan_l (direction ray) (direction ray) H).
        cbn [fmul SFmul f4 lit binary_normalize]. 
        change (f4 * S754_nan)%f32 with S754_nan.
        cbn [fmul SFmul]. rewrite fsub_nan_r. reflexivity.
    - rewrite (Dot_nan_l (origin ray - center sphere)%vec)
        by (apply vsub_nan; rewrite H, orb_true_r; reflexivity).
      cbn [fsub SFsub]. rewrite fmul_nan_r, fsub_nan_r. reflexivity.
    - destruct (radius sphere); try discriminate H.
      change (S754_nan * S754_nan)%f32 with S754_nan.
      rewrite fsub_nan_r, fmul_nan_r, fsub_nan_r. reflexivity. }
  split; [exact D | apply discriminant_nan_no_hits, D].
Qed.

(** A NaN continuation ray, the direction of the hit at the normal
    [(1,0,0)], against the unit sphere. *)
Lemma Intersect_nan_no_hits_witness :
  hits (mkRay (ivec 1 0 0) nan3) unit_sphere = [].
Proof.
  apply (Intersect_nan_no_hits (mkRay (ivec 1 0 0) nan3) unit_sphere).
  reflexivity.
Defined.

(** X10.  [Intersect] reads the radius only through its square: a
    sphere with the opposite radius gives the same count and the same
    points. *)
Theorem Intersect_radius_sign (ray : Ray) (c : Vector3) (r : float) (m : Material)
    (result : array2) :
  Intersect ray (mkSphere c (SFopp r) m) result = Intersect ray (mkSphere c r m) result.
Proof.
  unfold Intersect. cbn [radius center]. rewrite fmul_opp_opp. reflexivity.
Qed.

(** * More on the nearest-hit search *)

Lemma first_hit_hits (ray : Ray) (sphere : Sphere) :
  first_hit ray sphere =
  match hits ray sphere with
  | [] => None
  | p :: _ => Some (p, Length (p - origin ray)%vec)
  end.
Proof.
  unfold first_hit, hits, Intersect.
  destruct (_ <? f0)%f32; [reflexivity|].
  destruct (_ >=? f0)%f32; destruct (_ >? kEpsilon)%f32; try reflexivity;
    destruct (_ >=? f0)%f32; try reflexivity;
    cbn [andb]; destruct (_ <? _)%f32; reflexivity.
Qed.

Lemma scan_step_first_hit (ray : Ray) (i : Z) (sphere : Sphere) (st : Nearest) :
  scan_step ray i sphere st =
  match first_hit ray sphere with
  | Some (p, d) => if (d <? nearestDistance st)%f32 then mkNearest i d p else st
  | None => st
  end.
Proof.
  unfold scan_step, first_hit.
  destruct (Intersect ray sphere (Vector3_splat f0, Vector3_splat f0)) as [n r].
  destruct (n >? 0)%Z; reflexivity.
Qed.

(** The search either leaves its state as it was, no sphere having a
    first hit nearer than the distance it started with, or ends with
    the first sphere among those whose first hit is nearest. *)
Lemma scan_spec (ray : Ray) (spheres : list Sphere) :
  forall (i : Z) (st : Nearest),
    (scan ray spheres i st = st
     /\ forall j s p d,
          nth_error spheres j = Some s -> first_hit ray s = Some (p, d) ->
          (d <? nearestDistance st)%f32 = false)
    \/ (exists j s p d,
          nth_error spheres j = Some s /\ first_hit ray s = Some (p, d)
          /\ scan ray spheres i st = mkNearest (i + Z.of_nat j) d p
          /\ (d <? nearestDistance st)%f32 = true
          /\ forall j' s' p' d',
               nth_error spheres j' = Some s' -> first_hit ray s' = Some (p', d') ->
               (d' <? d)%f32 = false /\ ((j' < j)%nat -> (d' <=? d)%f32 = false)).
Proof.
  induction spheres as [|s0 rest IH]; intros i st.
  - left. split; [reflexivity|]. intros [|j] s p d H; discriminate H.
  - cbn [scan]. rewrite scan_step_first_hit.
    destruct (first_hit ray s0) as [[p0 d0]|] eqn:F0.
    + destruct (d0 <? nearestDistance st)%f32 eqn:L0.
      * (* the head becomes the nearest so far *)
        destruct (IH (i + 1)%Z (mkNearest i d0 p0)) as [[E Hall]|(j & s & p & d & Hn & Hf & E & Hlt & Hmin)];
          cbn [nearestDistance] in *.
        -- right. exists 0%nat, s0, p0, d0.
           rewrite E, Z.add_0_r. repeat split; trivial.
           ++ destruct j' as [|j']; cbn [nth_error] in H.
              ** injection H as <-. rewrite F0 in H0. injection H0 as <- <-.
                 apply flt_irrefl.
              ** eapply Hall; eassumption.
           ++ lia.
        -- right. exists (S j), s, p, d. cbn [nth_error].
           replace (i + Z.of_nat (S j))%Z with (i + 1 + Z.of_nat j)%Z by lia.
           repeat split; trivial.
           ++ eapply flt_trans; eassumption.
           ++ destruct j' as [|j']; cbn [nth_error] in H.
              ** injection H as <-. rewrite F0 in H0. injection H0 as <- <-.
                 destruct (d0 <? d)%f32 eqn:C; [|reflexivity].
                 pose proof (flt_trans _ _ _ C Hlt) as T.
                 rewrite flt_irrefl in T. discriminate.
              ** eapply Hmin; eassumption.
           ++ destruct j' as [|j']; cbn [nth_error] in H.
              ** injection H as <-. rewrite F0 in H0. injection H0 as <- <-.
                 intros _. destruct (d0 <=? d)%f32 eqn:C; [|reflexivity].
                 apply fle_not_flt in C. congruence.
              ** intros Hj. eapply Hmin; try eassumption. lia.
      * (* the head has a hit that is not nearer *)
        destruct (IH (i + 1)%Z st) as [[E Hall]|(j & s & p & d & Hn & Hf & E & Hlt & Hmin)].
        -- left. split; [exact E|].
           intros [|j] s p d H H0; cbn [nth_error] in H.
           ++ injection H as <-. rewrite F0 in H0. injection H0 as <- <-. exact L0.
           ++ eapply Hall; eassumption.
        -- right. exists (S j), s, p, d. cbn [nth_error].
           replace (i + Z.of_nat (S j))%Z with (i + 1 + Z.of_nat j)%Z by lia.
           repeat split; trivial.
           ++ destruct j' as [|j']; cbn [nth_error] in H.
              ** injection H as <-. rewrite F0 in H0. injection H0 as <- <-.
                 destruct (d0 <? d)%f32 eqn:C; [|reflexivity].
                 pose proof (flt_trans _ _ _ C Hlt) as T. congruence.
              ** eapply Hmin; eassumption.
           ++ destruct j' as [|j']; cbn [nth_error] in H.
              ** injection H as <-. rewrite F0 in H0. injection H0 as <- <-.
                 intros _. destruct (d0 <=? d)%f32 eqn:C; [|reflexivity].
                 pose proof (fle_flt_trans _ _ _ C Hlt) as T. congruence.
              ** intros Hj. eapply Hmin; try eassumption. lia.
    + (* the head has no hit *)
      destruct (IH (i + 1)%Z st) as [[E Hall]|(j & s & p & d & Hn & Hf & E & Hlt & Hmin)].
      * left. split; [exact E|].
        intros [|j] s p d H H0; cbn [nth_error] in H.
        -- injection H as <-. congruence.
        -- eapply Hall; eassumption.
      * right. exists (S j), s, p, d. cbn [nth_error].
        replace (i + Z.of_nat (S j))%Z with (i + 1 + Z.of_nat j)%Z by lia.
        repeat split; trivial.
        -- destruct j' as [|j']; cbn [nth_error] in H.
           ++ injection H as <-. congruence.
           ++ eapply Hmin; eassumption.
        -- destruct j' as [|j']; cbn [nth_error] in H.
           ++ injection H as <-. congruence.
           ++ intros Hj. eapply Hmin; try eassumption. lia.
Qed.

(** X11.  When the search of [TracePath] finds a sphere, the index it
    keeps is a valid index, the point and the distance it keeps are the
    first hit of that sphere, the distance is below [FLT_MAX], no
    sphere of the scene has a nearer first hit, and every sphere before
    the chosen one has a strictly farther first hit (or none, or one at
    a NaN distance): among equally near spheres the first in the scene
    wins. *)
Theorem nearest_hit_first_minimum (ray : Ray) (spheres : list Sphere) :
  nearestSphereIndex (nearest_hit ray spheres) <> INT_MAX ->
  exists j s,
    nearestSphereIndex (nearest_hit ray spheres) = Z.of_nat j
    /\ nth_error spheres j = Some s
    /\ first_hit ray s
       = Some (nearestIntersection (nearest_hit ray spheres),
               nearestDistance (nearest_hit ray spheres))
    /\ (nearestDistance (nearest_hit ray spheres) <? FLT_MAX)%f32 = true
    /\ forall j' s' p' d',
         nth_error spheres j' = Some s' -> first_hit ray s' = Some (p', d') ->
         (d' <? nearestDistance (nearest_hit ray spheres))%f32 = false
         /\ ((j' < j)%nat ->
             (d' <=? nearestDistance (nearest_hit ray spheres))%f32 = false).
Proof.
  intros Hhit. unfold nearest_hit in *.
  destruct (scan_spec ray spheres 0 (mkNearest INT_MAX FLT_MAX (Vector3_splat FLT_MAX)))
    as [[E _]|(j & s & p & d & Hn & Hf & E & Hlt & Hmin)].
  - rewrite E in Hhit. contradiction.
  - rewrite E. cbn [nearestSphereIndex nearestIntersection nearestDistance] in *.
    exists j, s. repeat split; trivial; eapply Hmin; eassumption.
Qed.

(** Two unit spheres on the ray, the farther one first in the scene:
    the search picks the second. *)
Lemma nearest_hit_first_minimum_witness :
  exists j s,
    nearestSphereIndex
      (nearest_hit ray_z [mkSphere (ivec 0 0 5) f1 emissive_only; unit_sphere])
    = Z.of_nat j
    /\ nth_error [mkSphere (ivec 0 0 5) f1 emissive_only; unit_sphere] j = Some s
    /\ j = 1%nat /\ s = unit_sphere.
Proof.
  destruct (nearest_hit_first_minimum ray_z
              [mkSphere (ivec 0 0 5) f1 emissive_only; unit_sphere])
    as (j & s & Hj & Hs & _).
  - vm_compute. discriminate.
  - exists j, s. split; [exact Hj|]. split; [exact Hs|].
    assert (Hv : nearestSphereIndex
                   (nearest_hit ray_z
                      [mkSphere (ivec 0 0 5) f1 emissive_only; unit_sphere]) = 1%Z)
      by (vm_compute; reflexivity).
    rewrite Hv in Hj.
    assert (j = 1%nat) as -> by lia.
    split; [reflexivity|]. cbn in Hs. congruence.
Defined.

Section MissAndDraws.

Variable cosf sinf : float -> float.
Variable rand_values : nat -> Z.
Variable NDEBUG : bool.

(** X12.  When no sphere of the scene has a first hit at a distance
    below [FLT_MAX] (no hit at all, or only hits at an infinite or NaN
    distance), [TracePath] returns [(0,0,0)] and draws no random
    number. *)
Theorem TracePath_nothing_in_reach (fuel : nat) (ray : Ray) (spheres : list Sphere)
    (bounce : Z) (k : nat) :
  (forall s p d, In s spheres -> first_hit ray s = Some (p, d) ->
                 (d <? FLT_MAX)%f32 = false) ->
  TracePath cosf sinf rand_values NDEBUG (S fuel) ray spheres bounce k
  = Ok (mkVector3 f0 f0 f0, k).
Proof.
  intros Hmiss. cbn [TracePath].
  destruct (bounce =? kMaxBounces)%Z; [reflexivity|].
  unfold nearest_hit.
  destruct (scan_spec ray spheres 0 (mkNearest INT_MAX FLT_MAX (Vector3_splat FLT_MAX)))
    as [[E _]|(j & s & p & d & Hn & Hf & _ & Hlt & _)].
  - rewrite E. reflexivity.
  - cbn [nearestDistance] in Hlt.
    rewrite (Hmiss s p d (nth_error_In _ _ Hn) Hf) in Hlt. discriminate.
Qed.

End MissAndDraws.

(** A ray that passes both spheres of the scene at a distance. *)
Lemma TracePath_nothing_in_reach_witness :
  TracePath cosf_at_zero sinf_at_zero rand_zero false 7 ray_far
    [unit_sphere; side_sphere] 0 0
  = Ok (mkVector3 f0 f0 f0, 0%nat).
Proof.
  apply (TracePath_nothing_in_reach cosf_at_zero sinf_at_zero rand_zero false 6
           ray_far [unit_sphere; side_sphere] 0 0).
  intros s p d [<-|[<-|[]]] H; vm_compute in H; discriminate H.
Defined.

(** The vector version's [Intersect] returns the points the array
    version counts. *)
Lemma Part000_Intersect_hits (ray : Ray) (sphere : Sphere) :
  Part000.Intersect ray sphere = hits ray sphere.
Proof.
  unfold Part000.Intersect, hits, Intersect.
  destruct (_ <? f0)%f32; [reflexivity|].
  destruct (_ >=? f0)%f32; destruct (_ >? kEpsilon)%f32; try reflexivity;
    destruct (_ >=? f0)%f32; try reflexivity;
    cbn [andb]; destruct (_ <? _)%f32; reflexivity.
Qed.

Lemma Part000Loop_scan_step (ray : Ray) (i : Z) (sphere : Sphere) (st : Nearest) :
  Part000Loop.scan_step ray i sphere st = scan_step ray i sphere st.
Proof.
  rewrite scan_step_first_hit, first_hit_hits.
  unfold Part000Loop.scan_step. rewrite Part000_Intersect_hits.
  destruct (hits ray sphere); reflexivity.
Qed.

(** X20.  The nearest-hit loops of the two copies of [TracePath], one
    reading the array and the count, the other the vector, end with the
    same sphere index, distance and point, from any state and for any
    scene. *)
Theorem Part000Loop_scan_agrees (ray : Ray) (spheres : list Sphere) (i : Z)
    (st : Nearest) :
  Part000Loop.scan ray spheres i st = scan ray spheres i st
  /\ Part000Loop.nearest_hit ray spheres = nearest_hit ray spheres.
Proof.
  assert (H : forall l j s, Part000Loop.scan ray l j s = scan ray l j s).
  { induction l as [|s0 rest IH]; intros j s; [reflexivity|].
    cbn [Part000Loop.scan scan]. rewrite Part000Loop_scan_step. apply IH. }
  split; [apply H|]. unfold Part000Loop.nearest_hit, nearest_hit. apply H.
Qed.

(** * More on the path integrator *)

Section Draws.

Variable cosf sinf : float -> float.
Variable rand_values : nat -> Z.
Variable NDEBUG : bool.

Lemma TracePath_draws_aux (fuel : nat) :
  forall (ray : Ray) (spheres : list Sphere) (bounce : Z) (k k' : nat) (v : Vector3),
    (bounce <= kMaxBounces)%Z ->
    TracePath cosf sinf rand_values NDEBUG fuel ray spheres bounce k = Ok (v, k') ->
    exists hits_made : nat,
      k' = (k + 2 * hits_made)%nat /\ (Z.of_nat hits_made <= kMaxBounces - bounce)%Z.
Proof.
  induction fuel as [|fuel IH]; intros ray spheres bounce k k' v Hb Hrun;
    [discriminate Hrun|].
  cbn [TracePath] in Hrun.
  destruct (bounce =? kMaxBounces)%Z eqn:Hb6.
  { injection Hrun as _ <-. exists 0%nat. split; lia. }
  apply Z.eqb_neq in Hb6.
  destruct (nearestSphereIndex (nearest_hit ray spheres) =? INT_MAX)%Z.
  { cbn in Hrun. injection Hrun as _ <-. exists 0%nat. split; lia. }
  destruct (nth_error spheres _) as [closestSphere|]; [|discriminate Hrun].
  repeat (rewrite bind_rand in Hrun; cbv beta zeta in Hrun).
  unfold bind at 1 in Hrun.
  destruct (assert NDEBUG _ (S (S k))) as [[[] k1]|e] eqn:Ha; [|discriminate Hrun].
  assert (k1 = S (S k)) as ->.
  { unfold assert in Ha. destruct NDEBUG; [|destruct (_ >=? _)%f32];
      unfold ret, fail in Ha; congruence. }
  unfold bind at 1 in Hrun. unfold pre_increment in Hrun.
  destruct (bounce =? INT_MAX)%Z; [discriminate Hrun|]. cbn [ret] in Hrun.
  unfold bind in Hrun.
  destruct (TracePath cosf sinf rand_values NDEBUG fuel _ spheres (bounce + 1) (S (S k)))
    as [[radiance k2]|e] eqn:Hrec; [|discriminate Hrun].
  injection Hrun as _ <-.
  apply IH in Hrec; [|lia]. destruct Hrec as (h & -> & Hh).
  exists (S h). split; lia.
Qed.

End Draws.

Section DrawsOnThePath.

Variable cosf sinf : float -> float.
Variable rand_values : nat -> Z.
Variable NDEBUG : bool.

Lemma surface_hits_bound (n : nat) :
  forall (ray : Ray) (spheres : list Sphere) (k : nat),
    (surface_hits cosf sinf rand_values n ray spheres k <= n)%nat.
Proof.
  induction n as [|n IH]; intros ray spheres k; cbn [surface_hits]; [lia|].
  destruct (continuation cosf sinf rand_values ray spheres k) as [newRay|]; [|lia].
  specialize (IH newRay spheres (S (S k))). lia.
Qed.

Lemma TracePath_draws_on_path (fuel : nat) :
  forall (ray : Ray) (spheres : list Sphere) (bounce : Z) (k k' : nat) (v : Vector3),
    (bounce <= kMaxBounces)%Z ->
    TracePath cosf sinf rand_values NDEBUG fuel ray spheres bounce k = Ok (v, k') ->
    k' = (k + 2 * surface_hits cosf sinf rand_values
                    (Z.to_nat (kMaxBounces - bounce)) ray spheres k)%nat.
Proof.
  induction fuel as [|fuel IH]; intros ray spheres bounce k k' v Hb Hrun;
    [discriminate Hrun|].
  cbn [TracePath] in Hrun.
  destruct (bounce =? kMaxBounces)%Z eqn:Hb6.
  { apply Z.eqb_eq in Hb6. subst bounce. rewrite Z.sub_diag.
    injection Hrun as _ <-. cbn [Z.to_nat surface_hits]. lia. }
  apply Z.eqb_neq in Hb6.
  replace (Z.to_nat (kMaxBounces - bounce))
    with (S (Z.to_nat (kMaxBounces - (bounce + 1)))) by lia.
  cbn [surface_hits]. unfold continuation.
  destruct (nearestSphereIndex (nearest_hit ray spheres) =? INT_MAX)%Z.
  { cbn in Hrun. injection Hrun as _ <-. lia. }
  destruct (nth_error spheres _) as [closestSphere|]; [|discriminate Hrun].
  repeat (rewrite bind_rand in Hrun; cbv beta zeta in Hrun).
  unfold bind at 1 in Hrun.
  destruct (assert NDEBUG _ (S (S k))) as [[[] k1]|e] eqn:Ha; [|discriminate Hrun].
  assert (k1 = S (S k)) as ->.
  { unfold assert in Ha. destruct NDEBUG; [|destruct (_ >=? _)%f32];
      unfold ret, fail in Ha; congruence. }
  unfold bind at 1 in Hrun. unfold pre_increment in Hrun.
  destruct (bounce =? INT_MAX)%Z; [discriminate Hrun|]. cbn [ret] in Hrun.
  unfold bind in Hrun.
  destruct (TracePath cosf sinf rand_values NDEBUG fuel _ spheres (bounce + 1) (S (S k)))
    as [[radiance k2]|e] eqn:Hrec; [|discriminate Hrun].
  injection Hrun as _ <-.
  apply IH in Hrec; [|lia]. cbv zeta. rewrite Hrec. lia.
Qed.

(** X13.  Whenever [TracePath] returns from a bounce between 0 and the
    limit, it has drawn exactly two random values for each surface hit
    on the path it followed and none besides; the path has at most
    [kMaxBounces - bounce] hits, so at most 12 values are drawn. *)
Theorem TracePath_draws (fuel : nat) (ray : Ray) (spheres : list Sphere)
    (bounce : Z) (k k' : nat) (v : Vector3) :
  (0 <= bounce <= kMaxBounces)%Z ->
  TracePath cosf sinf rand_values NDEBUG fuel ray spheres bounce k = Ok (v, k') ->
  k' = (k + 2 * surface_hits cosf sinf rand_values
                  (Z.to_nat (kMaxBounces - bounce)) ray spheres k)%nat
  /\ (Z.of_nat (surface_hits cosf sinf rand_values
                  (Z.to_nat (kMaxBounces - bounce)) ray spheres k)
      <= kMaxBounces - bounce)%Z
  /\ (k' <= k + 12)%nat.
Proof.
  intros Hb Hrun.
  pose proof (TracePath_draws_on_path fuel ray spheres bounce k k' v (proj2 Hb) Hrun)
    as Hk.
  pose proof (surface_hits_bound (Z.to_nat (kMaxBounces - bounce)) ray spheres k)
    as Hn.
  unfold kMaxBounces in *. repeat split; lia.
Qed.

End DrawsOnThePath.

(** The example ray hits the unit sphere once and the continuation ray
    misses: one hit on the path, two values drawn. *)
Lemma TracePath_draws_witness :
  surface_hits cosf_at_zero sinf_at_zero rand_zero
    (Z.to_nat (kMaxBounces - 0)) ray_z [unit_sphere] 0 = 1%nat
  /\ 2%nat = (0 + 2 * surface_hits cosf_at_zero sinf_at_zero rand_zero
                     (Z.to_nat (kMaxBounces - 0)) ray_z [unit_sphere] 0)%nat
  /\ (Z.of_nat (surface_hits cosf_at_zero sinf_at_zero rand_zero
                  (Z.to_nat (kMaxBounces - 0)) ray_z [unit_sphere] 0)
      <= kMaxBounces - 0)%Z
  /\ (2 <= 0 + 12)%nat.
Proof.
  split; [vm_compute; reflexivity|].
  apply (TracePath_draws cosf_at_zero sinf_at_zero rand_zero false 7 ray_z
           [unit_sphere] 0 0 2 (ivec 10 10 10)).
  - unfold kMaxBounces. lia.
  - vm_compute. reflexivity.
Defined.

Section Release.

Variable cosf sinf : float -> float.
Variable rand_values : nat -> Z.

Lemma TracePath_release_returns_aux (fuel : nat) :
  forall (ray : Ray) (spheres : list Sphere) (bounce : Z) (k : nat),
    (bounce <= kMaxBounces)%Z ->
    (Z.to_nat (kMaxBounces - bounce) < fuel)%nat ->
    exists v k', TracePath cosf sinf rand_values true fuel ray spheres bounce k
                 = Ok (v, k').
Proof.
  induction fuel as [|fuel IH]; intros ray spheres bounce k Hb Hf; [lia|].
  cbn [TracePath].
  destruct (bounce =? kMaxBounces)%Z eqn:Hb6; [eexists _, _; reflexivity|].
  apply Z.eqb_neq in Hb6.
  destruct (nearestSphereIndex (nearest_hit ray spheres) =? INT_MAX)%Z eqn:Hhit.
  - cbn. eexists _, _; reflexivity.
  - apply Z.eqb_neq in Hhit.
    destruct (nearest_hit_in_range ray spheres Hhit) as [closestSphere ->].
    repeat (rewrite bind_rand; cbv beta zeta).
    unfold bind, assert, pre_increment.
    assert (HbM : (bounce =? INT_MAX)%Z = false)
      by (apply Z.eqb_neq; unfold kMaxBounces, INT_MAX in *; lia).
    rewrite HbM. cbn [ret].
    match goal with
    | |- context [TracePath _ _ _ _ fuel ?r spheres (bounce + 1)%Z ?k'] =>
        destruct (IH r spheres (bounce + 1)%Z k') as (v & k'' & ->); [lia | lia |]
    end.
    eexists _, _; reflexivity.
Qed.

(** X14.  Built with [NDEBUG], [TracePath] always returns: from a bounce
    between 0 and the limit it returns a radiance for every ray, scene
    and random stream, within the [kMaxBounces + 1] nested calls of the
    budget. *)
Theorem TracePath_release_returns (ray : Ray) (spheres : list Sphere)
    (bounce : Z) (k : nat) :
  (0 <= bounce <= kMaxBounces)%Z ->
  exists v k',
    TracePath cosf sinf rand_values true (S (Z.to_nat kMaxBounces)) ray spheres bounce k
    = Ok (v, k').
Proof.
  intros Hb. apply TracePath_release_returns_aux; unfold kMaxBounces in *; lia.
Qed.

End Release.

(** The hit at the normal [(1,0,0)], where the build with assertions
    aborts. *)
Lemma TracePath_release_returns_witness :
  exists v k',
    TracePath cosf_at_zero sinf_at_zero rand_zero true (S (Z.to_nat kMaxBounces))
      ray_x [unit_sphere] 0 0
    = Ok (v, k').
Proof.
  apply (TracePath_release_returns cosf_at_zero sinf_at_zero rand_zero
           ray_x [unit_sphere] 0 0).
  unfold kMaxBounces. lia.
Defined.

(** ** Roughness *)

Lemma Intersect_same_geometry (ray : Ray) (s s' : Sphere) (result : array2) :
  same_but_roughness s s' -> Intersect ray s result = Intersect ray s' result.
Proof.
  intros (Hc & Hr & _). unfold Intersect. rewrite Hc, Hr. reflexivity.
Qed.

Lemma scan_same_geometry (ray : Ray) (spheres spheres' : list Sphere) :
  Forall2 same_but_roughness spheres spheres' ->
  forall i st, scan ray spheres i st = scan ray spheres' i st.
Proof.
  induction 1 as [|s s' rest rest' Hs _ IH]; intros i st; [reflexivity|].
  cbn [scan]. unfold scan_step.
  rewrite (Intersect_same_geometry ray s s' _ Hs). apply IH.
Qed.

Lemma nth_error_same_geometry (spheres spheres' : list Sphere) (n : nat) :
  Forall2 same_but_roughness spheres spheres' ->
  match nth_error spheres n, nth_error spheres' n with
  | Some s, Some s' => same_but_roughness s s'
  | None, None => True
  | _, _ => False
  end.
Proof.
  intros H. revert n. induction H as [|s s' rest rest' Hs _ IH]; intros [|n];
    cbn [nth_error]; trivial. apply IH.
Qed.

Section Roughness.

Variable cosf sinf : float -> float.
Variable rand_values : nat -> Z.
Variable NDEBUG : bool.

(** X15.  [TracePath] never reads the roughness of a material: two
    scenes whose spheres differ at most in roughness give the same
    outcome, radiance and random draws included. *)
Theorem TracePath_ignores_roughness (fuel : nat) (spheres spheres' : list Sphere) :
  Forall2 same_but_roughness spheres spheres' ->
  forall (ray : Ray) (bounce : Z) (k : nat),
    TracePath cosf sinf rand_values NDEBUG fuel ray spheres bounce k
    = TracePath cosf sinf rand_values NDEBUG fuel ray spheres' bounce k.
Proof.
  intros Hsame. induction fuel as [|fuel IH]; intros ray bounce k; [reflexivity|].
  cbn [TracePath]. unfold nearest_hit.
  rewrite (scan_same_geometry ray spheres spheres' Hsame).
  destruct (bounce =? kMaxBounces)%Z; [reflexivity|].
  destruct (_ =? INT_MAX)%Z; [reflexivity|].
  pose proof (nth_error_same_geometry spheres spheres'
                (Z.to_nat (nearestSphereIndex
                   (scan ray spheres' 0
                      (mkNearest INT_MAX FLT_MAX (Vector3_splat FLT_MAX))))) Hsame) as Hn.
  destruct (nth_error spheres _) as [s|], (nth_error spheres' _) as [s'|];
    try contradiction; [|reflexivity].
  destruct Hn as (Hc & _ & Ha & He). rewrite Hc, Ha, He.
  repeat (rewrite bind_rand; cbv beta zeta).
  apply bind_ext_r. intros _ k1.
  apply bind_ext_r. intros bounce' k2.
  apply bind_ext. apply IH.
Qed.

End Roughness.

(** The unit sphere with roughness 0 instead of 1. *)
Lemma TracePath_ignores_roughness_witness :
  TracePath cosf_at_zero sinf_at_zero rand_zero false 7 ray_z [unit_sphere] 0 0
  = TracePath cosf_at_zero sinf_at_zero rand_zero false 7 ray_z
      [mkSphere (ivec 0 0 0) f1 (mkMaterial (ivec 0 0 0) (ivec 10 10 10) f0)] 0 0.
Proof.
  apply (TracePath_ignores_roughness cosf_at_zero sinf_at_zero rand_zero false 7
           [unit_sphere]
           [mkSphere (ivec 0 0 0) f1 (mkMaterial (ivec 0 0 0) (ivec 10 10 10) f0)]).
  constructor; [|constructor]. repeat split.
Defined.

(** * More on the frame driver *)

Lemma for_loop_invariant {A} (I : nat -> A -> nat -> Prop) (body : Z -> A -> M A) :
  (forall m acc k acc' k',
      I m acc k -> body (Z.of_nat m) acc k = Ok (acc', k') -> I (S m) acc' k') ->
  forall n m acc k acc' k',
    I m acc k ->
    for_loop n (Z.of_nat m) body acc k = Ok (acc', k') ->
    I (m + n)%nat acc' k'.
Proof.
  intros Hstep. induction n as [|n IH]; intros m acc k acc' k' HI Hrun.
  - cbn in Hrun. injection Hrun as <- <-. rewrite Nat.add_0_r. exact HI.
  - cbn [for_loop] in Hrun. unfold bind in Hrun.
    destruct (body (Z.of_nat m) acc k) as [[acc1 k1]|e] eqn:Hb; [|discriminate Hrun].
    replace (Z.of_nat m + 1)%Z with (Z.of_nat (S m)) in Hrun by lia.
    replace (m + S n)%nat with (S m + n)%nat by lia.
    eapply IH; [|exact Hrun]. eapply Hstep; eassumption.
Qed.

(** A loop never runs out of fuel when its body does not. *)
Lemma for_loop_fuel {A} (body : Z -> A -> M A) :
  (forall i acc k, body i acc k <> Err OutOfFuel) ->
  forall n i acc k, for_loop n i body acc k <> Err OutOfFuel.
Proof.
  intros Hbody. induction n as [|n IH]; intros i acc k; [discriminate|].
  cbn [for_loop]. unfold bind.
  destruct (body i acc k) as [[acc1 k1]|e] eqn:Hb; [apply IH|].
  intros E. apply (Hbody i acc k). congruence.
Qed.

Lemma bind_fuel {A B} (c : M A) (f : A -> M B) (k : nat) :
  c k <> Err OutOfFuel ->
  (forall a k', f a k' <> Err OutOfFuel) ->
  bind c f k <> Err OutOfFuel.
Proof.
  intros Hc Hf. unfold bind. destruct (c k) as [[a k']|e]; [apply Hf|].
  intros E. apply Hc. congruence.
Qed.

Lemma BYTE_of_float_fuel (v : float) (k : nat) : BYTE_of_float v k <> Err OutOfFuel.
Proof.
  unfold BYTE_of_float.
  destruct v; try discriminate; destruct (_ && _); discriminate.
Qed.

Lemma RGB_range (r g b : Z) :
  (0 <= r <= 255)%Z -> (0 <= g <= 255)%Z -> (0 <= b <= 255)%Z ->
  (0 <= RGB r g b < 2 ^ 24)%Z.
Proof.
  intros Hr Hg Hb. unfold RGB. rewrite !Z.shiftl_mul_pow2 by lia.
  assert (H1 : (0 <= Z.lor r (g * 2 ^ 8) <= r + g * 2 ^ 8)%Z).
  { split; [apply Z.lor_nonneg; lia|].
    pose proof (Z.add_lor_land r (g * 2 ^ 8)) as E.
    assert (0 <= Z.land r (g * 2 ^ 8))%Z by (apply Z.land_nonneg; lia). lia. }
  split; [apply Z.lor_nonneg; lia|].
  pose proof (Z.add_lor_land (Z.lor r (g * 2 ^ 8)) (b * 2 ^ 16)) as E.
  assert (0 <= Z.land (Z.lor r (g * 2 ^ 8)) (b * 2 ^ 16))%Z
    by (apply Z.land_nonneg; lia).
  lia.
Qed.

Lemma BYTE_of_float_range (v : float) (k k' : nat) (n : Z) :
  BYTE_of_float v k = Ok (n, k') -> (0 <= n <= 255)%Z /\ k' = k.
Proof.
  assert (H : forall t : Z,
             (if (0 <=? t)%Z && (t <=? 255)%Z then ret t else fail UndefinedBehaviour) k
             = Ok (n, k') -> (0 <= n <= 255)%Z /\ k' = k).
  { intros t. destruct (_ && _) eqn:E; [|discriminate].
    unfold ret. intros Ht. injection Ht as <- <-.
    apply andb_true_iff in E as [E1 E2]. apply Z.leb_le in E1, E2.
    split; [lia | reflexivity]. }
  unfold BYTE_of_float. destruct v as [s|s| |s m e]; try discriminate; apply H.
Qed.

Section Frame.

Variable cosf sinf : float -> float.
Variable rand_values : nat -> Z.
Variable NDEBUG : bool.

Lemma Render_pixel_spec spheres camPos camRight orthoCamUp dx dy i j pixels k pixels' k' :
  Render_pixel cosf sinf rand_values NDEBUG spheres camPos camRight orthoCamUp
    dx dy i j pixels k = Ok (pixels', k') ->
  exists c, pixels' = pixels ++ [(i, j, c)] /\ (0 <= c < 2 ^ 24)%Z
            /\ (k <= k' <= k + 12 * kNumSamples)%nat.
Proof.
  unfold Render_pixel. intros Hrun. unfold bind at 1 in Hrun.
  match type of Hrun with
  | context [for_loop kNumSamples 0 ?body ?acc k] =>
      destruct (for_loop kNumSamples 0 body acc k) as [[colorSum k1]|e] eqn:Hloop;
      [|discriminate Hrun];
      assert (Hk : (k <= k1 <= k + 12 * kNumSamples)%nat);
      [ change 0%Z with (Z.of_nat 0) in Hloop;
        apply (for_loop_invariant
                 (fun m (_ : Vector3) k1 => (k <= k1 <= k + 12 * m)%nat) body) 
          with (m := 0%nat) (n := kNumSamples) in Hloop;
        [ exact Hloop | | lia ] | ]
  end.
  - intros m acc k2 acc' k2' Hm Hb. unfold bind in Hb.
    destruct (TracePath _ _ _ _ _ _ _ _ k2) as [[sample k3]|e] eqn:Ht;
      [|discriminate Hb].
    injection Hb as _ <-.
    apply TracePath_draws_aux in Ht; [|unfold kMaxBounces; lia].
    destruct Ht as (h & -> & Hh). unfold kMaxBounces in Hh. lia.
  - unfold bind in Hrun.
    destruct (BYTE_of_float _ k1) as [[r kr]|e] eqn:Hr; [|discriminate Hrun].
    apply BYTE_of_float_range in Hr as [Hr ->].
    destruct (BYTE_of_float _ k1) as [[g kg]|e] eqn:Hg; [|discriminate Hrun].
    apply BYTE_of_float_range in Hg as [Hg ->].
    destruct (BYTE_of_float _ k1) as [[b kb]|e] eqn:Hb; [|discriminate Hrun].
    apply BYTE_of_float_range in Hb as [Hb ->].
    injection Hrun as <- <-.
    exists (RGB r g b). repeat split; try lia; apply RGB_range; assumption.
Qed.

End Frame.

Lemma column_major_S (m h : nat) :
  flat_map (fun i => map (fun j => (Z.of_nat i, Z.of_nat j)) (seq 0 h)) (seq 0 (S m))
  = flat_map (fun i => map (fun j => (Z.of_nat i, Z.of_nat j)) (seq 0 h)) (seq 0 m)
    ++ map (fun j => (Z.of_nat m, Z.of_nat j)) (seq 0 h).
Proof.
  rewrite seq_S, flat_map_app. cbn [flat_map Nat.add]. rewrite app_nil_r. reflexivity.
Qed.

Section FrameDriver.

Variable cosf sinf : float -> float.
Variable rand_values : nat -> Z.
Variable NDEBUG : bool.

(** X16.  When [Render] returns, it has called [SetPixel] exactly once
    for every pixel of the window, column by column and each column
    from the top; every colour is a 24-bit [COLORREF]; and it has drawn
    at most [12 * kNumSamples] random values for each pixel. *)
Theorem Render_sets_every_pixel (width height : Z) (k k' : nat)
    (pixels : list (Z * Z * Z)) :
  Render cosf sinf rand_values NDEBUG width height k = Ok (pixels, k') ->
  map fst pixels = column_major width height
  /\ Forall (fun p => 0 <= snd p < 2 ^ 24)%Z pixels
  /\ (k <= k' <= k + 12 * kNumSamples * (Z.to_nat width * Z.to_nat height))%nat.
Proof.
  unfold Render, column_major. intros Hrun.
  set (H := Z.to_nat height) in *. set (W := Z.to_nat width) in *.
  change 0%Z with (Z.of_nat 0) in Hrun at 1.
  apply (for_loop_invariant
           (fun m px k1 =>
              map fst px
              = flat_map (fun i => map (fun j => (Z.of_nat i, Z.of_nat j)) (seq 0 H))
                         (seq 0 m)
              /\ Forall (fun p => 0 <= snd p < 2 ^ 24)%Z px
              /\ (k <= k1 <= k + 12 * kNumSamples * (m * H))%nat))
    with (m := 0%nat) in Hrun.
  - exact Hrun.
  - clear Hrun. intros m px k1 px' k1' (Hc & Hf & Hk) Hcol.
    change 0%Z with (Z.of_nat 0) in Hcol at 1.
    apply (for_loop_invariant
             (fun n px2 k2 =>
                map fst px2
                = map fst px ++ map (fun j => (Z.of_nat m, Z.of_nat j)) (seq 0 n)
                /\ Forall (fun p => 0 <= snd p < 2 ^ 24)%Z px2
                /\ (k1 <= k2 <= k1 + 12 * kNumSamples * n)%nat))
      with (m := 0%nat) in Hcol.
    + destruct Hcol as (Hc' & Hf' & Hk').
      rewrite column_major_S, <- Hc. cbn [Nat.add] in *.
      repeat split; trivial; nia.
    + clear Hcol. intros n px2 k2 px2' k2' (Hc2 & Hf2 & Hk2) Hpix.
      apply Render_pixel_spec in Hpix as (c & -> & Hcr & Hkp).
      rewrite map_app, Hc2, seq_S, map_app, <- app_assoc. cbn [map fst Nat.add].
      repeat split; trivial; try nia.
      apply Forall_app. split; [exact Hf2|]. constructor; [exact Hcr|constructor].
    + rewrite app_nil_r. repeat split; trivial; lia.
  - repeat split; trivial; lia.
Qed.

Lemma TracePath_primary_within_budget (ray : Ray) (spheres : list Sphere) (k : nat) :
  TracePath cosf sinf rand_values NDEBUG (S (Z.to_nat kMaxBounces)) ray spheres 0 k
  <> Err OutOfFuel.
Proof.
  destruct (TracePath_enough_fuel cosf sinf rand_values NDEBUG
              (S (Z.to_nat kMaxBounces)) ray spheres 0 k) as [[a E]|E];
    try (unfold kMaxBounces; simpl; lia); rewrite E; discriminate.
Qed.

(** X17.  [Render] never needs a deeper recursion than the
    [kMaxBounces + 1] nested calls it gives each primary ray: it ends
    with the pixels, with the abort of the assertion, or at a cast
    that C++ leaves undefined. *)
Theorem Render_within_budget (width height : Z) (k : nat) :
  Render cosf sinf rand_values NDEBUG width height k <> Err OutOfFuel.
Proof.
  unfold Render.
  apply for_loop_fuel. intros i px k1.
  apply for_loop_fuel. intros j px2 k2.
  unfold Render_pixel.
  apply bind_fuel.
  - apply for_loop_fuel. intros i' acc k3.
    apply bind_fuel; [apply TracePath_primary_within_budget | discriminate].
  - intros colorSum k3.
    repeat (apply bind_fuel; [apply BYTE_of_float_fuel | intros ? ?]).
    discriminate.
Qed.

Lemma for_loop_idle {A} (body : Z -> A -> M A) :
  (forall i acc k, body i acc k = Ok (acc, k)) ->
  forall n i acc k, for_loop n i body acc k = Ok (acc, k).
Proof.
  intros Hbody. induction n as [|n IH]; intros i acc k; [reflexivity|].
  cbn [for_loop]. unfold bind. rewrite Hbody. apply IH.
Qed.

(** X18.  For a window with no pixel, a width or a height that is zero
    or negative, [Render] traces nothing: it returns without a
    [SetPixel] call and without a random draw.  The quotient of 2 by a
    zero dimension is an infinite float that no pixel reads. *)
Theorem Render_empty_window (width height : Z) (k : nat) :
  (width <= 0 \/ height <= 0)%Z ->
  Render cosf sinf rand_values NDEBUG width height k = Ok ([], k).
Proof.
  intros Hwh. unfold Render.
  destruct (Z_le_gt_dec width 0) as [Hw|Hw].
  - replace (Z.to_nat width) with 0%nat by lia. reflexivity.
  - assert (Hh : Z.to_nat height = 0%nat) by lia. rewrite Hh.
    apply for_loop_idle. intros i acc k1. reflexivity.
Qed.

End FrameDriver.

(** A window two pixels wide and one high, all random values 0. *)
Lemma Render_sets_every_pixel_witness :
  Render cosf_at_zero sinf_at_zero rand_zero false 2 1 0
  = Ok ([(0, 0, 0); (1, 0, 16777215)]%Z, 2048%nat)
  /\ map fst [(0, 0, 0); (1, 0, 16777215)]%Z = column_major 2 1
  /\ Forall (fun p => 0 <= snd p < 2 ^ 24)%Z [(0, 0, 0); (1, 0, 16777215)]%Z
  /\ (0 <= 2048 <= 0 + 12 * kNumSamples * (Z.to_nat 2 * Z.to_nat 1))%nat.
Proof.
  assert (Hrun : Render cosf_at_zero sinf_at_zero rand_zero false 2 1 0
                 = Ok ([(0, 0, 0); (1, 0, 16777215)]%Z, 2048%nat))
    by (vm_compute; reflexivity).
  split; [exact Hrun|].
  exact (Render_sets_every_pixel cosf_at_zero sinf_at_zero rand_zero false
           2 1 0 2048 [(0, 0, 0); (1, 0, 16777215)]%Z Hrun).
Defined.

(** A window of height 0 and one of negative width. *)
Lemma Render_empty_window_witness :
  Render cosf_at_zero sinf_at_zero rand_zero false 3 0 5 = Ok ([], 5%nat)
  /\ Render cosf_at_zero sinf_at_zero rand_zero false (-2) 4 0 = Ok ([], 0%nat).
Proof.
  split; apply Render_empty_window; lia.
Defined.

(** * Scene construction *)

(** X19.  An offset sphere with offset 0 is the tangent sphere: same
    centre, same material and, bit for bit, the same radius, also when
    the radius is a negative zero, an infinity or NaN. *)
Theorem GenerateOffsetSphere_zero_offset (sphere : Sphere) (c : Vector3)
    (m : Material) :
  GenerateOffsetSphere sphere c f0 m = GenerateTangentSphere sphere c m.
Proof.
  unfold GenerateOffsetSphere, GenerateTangentSphere.
  rewrite fsub_zero_r. reflexivity.
Qed.

(** * Determinism of the frame driver *)

Lemma same_draws_fewer (rand1 rand2 : nat -> Z) (n m k1 k2 : nat) :
  (m <= n)%nat -> same_draws rand1 rand2 n k1 k2 -> same_draws rand1 rand2 m k1 k2.
Proof. intros Hm H i Hi. apply H. lia. Qed.

Lemma same_draws_later (rand1 rand2 : nat -> Z) (n m d k1 k2 : nat) :
  (d + m <= n)%nat -> same_draws rand1 rand2 n k1 k2 ->
  same_draws rand1 rand2 m (k1 + d) (k2 + d).
Proof.
  intros Hm H i Hi.
  replace (k1 + d + i)%nat with (k1 + (d + i))%nat by lia.
  replace (k2 + d + i)%nat with (k2 + (d + i))%nat by lia.
  apply H. lia.
Qed.

Lemma same_run_more {A} (n m k1 k2 : nat) (r1 r2 : outcome (A * nat)) :
  (n <= m)%nat -> same_run n k1 k2 r1 r2 -> same_run m k1 k2 r1 r2.
Proof.
  intros Hm. unfold same_run.
  destruct r1 as [[a1 k1']|e1], r2 as [[a2 k2']|e2]; try exact (fun H => H).
  intros (Ha & d & Hd & E1 & E2). split; [exact Ha|]. exists d. repeat split; lia || assumption.
Qed.

(** Sequencing: the first part within [a] draws, the rest, from where
    the first part ended, within [b] more. *)
Lemma same_run_bind {A B} (c1 c2 : M A) (f1 f2 : A -> M B) (a b k1 k2 : nat) :
  same_run a k1 k2 (c1 k1) (c2 k2) ->
  (forall v d, (d <= a)%nat ->
               same_run b (k1 + d) (k2 + d) (f1 v (k1 + d)%nat) (f2 v (k2 + d)%nat)) ->
  same_run (a + b) k1 k2 (bind c1 f1 k1) (bind c2 f2 k2).
Proof.
  intros Hc Hf. unfold bind.
  destruct (c1 k1) as [[v1 k1']|e1], (c2 k2) as [[v2 k2']|e2]; cbn in Hc;
    try contradiction; [|exact Hc].
  destruct Hc as (<- & d & Hd & -> & ->).
  specialize (Hf v1 d Hd). unfold same_run in *.
  destruct (f1 v1 (k1 + d)%nat) as [[w1 j1]|e1], (f2 v1 (k2 + d)%nat) as [[w2 j2]|e2];
    try contradiction; [|exact Hf].
  destruct Hf as (Hw & d' & Hd' & -> & ->). split; [exact Hw|].
  exists (d + d')%nat. repeat split; lia.
Qed.

Lemma same_run_after {A} (n d k1 k2 : nat) (r1 r2 : outcome (A * nat)) :
  same_run n (k1 + d) (k2 + d) r1 r2 -> same_run (d + n) k1 k2 r1 r2.
Proof.
  unfold same_run.
  destruct r1 as [[a1 k1']|e1], r2 as [[a2 k2']|e2]; try exact (fun H => H).
  intros (Ha & d' & Hd & E1 & E2). split; [exact Ha|].
  exists (d + d')%nat. repeat split; lia.
Qed.

Lemma same_run_ret {A} (v : A) (k1 k2 : nat) : same_run 0 k1 k2 (ret v k1) (ret v k2).
Proof. split; [reflexivity|]. exists 0%nat. repeat split; lia. Qed.

Lemma same_run_BYTE_of_float (v : float) (k1 k2 : nat) :
  same_run 0 k1 k2 (BYTE_of_float v k1) (BYTE_of_float v k2).
Proof.
  unfold BYTE_of_float.
  destruct v; try reflexivity; destruct (_ && _); try reflexivity; apply same_run_ret.
Qed.

Section TwoRuns.

Variable cosf sinf : float -> float.
Variable NDEBUG : bool.
Variable rand1 rand2 : nat -> Z.

(** A loop of [n] rounds, each within [per] draws. *)
Lemma for_loop_same_run {A} (body1 body2 : Z -> A -> M A) (per : nat) :
  (forall i acc k1 k2,
      same_draws rand1 rand2 per k1 k2 ->
      same_run per k1 k2 (body1 i acc k1) (body2 i acc k2)) ->
  forall n i acc k1 k2,
    same_draws rand1 rand2 (n * per) k1 k2 ->
    same_run (n * per) k1 k2 (for_loop n i body1 acc k1) (for_loop n i body2 acc k2).
Proof.
  intros Hbody. induction n as [|n IH]; intros i acc k1 k2 Hs.
  - apply same_run_ret.
  - cbn [for_loop]. change (S n * per)%nat with (per + n * per)%nat in *.
    apply same_run_bind.
    + apply Hbody. eapply same_draws_fewer; [|exact Hs]. lia.
    + intros v d Hd. apply IH. eapply same_draws_later; [|exact Hs]. lia.
Qed.

Lemma same_run_assert (cond : bool) (k1 k2 : nat) :
  same_run 0 k1 k2 (assert NDEBUG cond k1) (assert NDEBUG cond k2).
Proof.
  unfold assert. destruct NDEBUG; [apply same_run_ret|].
  destruct cond; [apply same_run_ret | reflexivity].
Qed.

Lemma same_run_pre_increment (n : Z) (k1 k2 : nat) :
  same_run 0 k1 k2 (pre_increment n k1) (pre_increment n k2).
Proof.
  unfold pre_increment. destruct (n =? INT_MAX)%Z; [reflexivity | apply same_run_ret].
Qed.

Lemma bind_pre_increment {B} (n : Z) (f : Z -> M B) (k : nat) :
  bind (pre_increment n) f k
  = if (n =? INT_MAX)%Z then Err UndefinedBehaviour else f (n + 1)%Z k.
Proof. unfold bind, pre_increment. destruct (n =? INT_MAX)%Z; reflexivity. Qed.

(** [TracePath] reads the stream only through the two values of each
    hit: what the generators return later does not matter. *)
Lemma TracePath_same_draws (fuel : nat) :
  forall (ray : Ray) (spheres : list Sphere) (bounce : Z) (k1 k2 : nat),
    (bounce <= kMaxBounces)%Z ->
    same_draws rand1 rand2 (2 * Z.to_nat (kMaxBounces - bounce)) k1 k2 ->
    same_run (2 * Z.to_nat (kMaxBounces - bounce)) k1 k2
      (TracePath cosf sinf rand1 NDEBUG fuel ray spheres bounce k1)
      (TracePath cosf sinf rand2 NDEBUG fuel ray spheres bounce k2).
Proof.
  induction fuel as [|fuel IH]; intros ray spheres bounce k1 k2 Hb Hs; [reflexivity|].
  cbn [TracePath].
  destruct (bounce =? kMaxBounces)%Z eqn:Hb6.
  { eapply same_run_more; [|apply same_run_ret]. lia. }
  apply Z.eqb_neq in Hb6.
  destruct (nearestSphereIndex (nearest_hit ray spheres) =? INT_MAX)%Z.
  { change (USE_SKY_COLOR =? 1)%Z with false. cbv iota.
    eapply same_run_more; [|apply same_run_ret]. lia. }
  destruct (nth_error spheres _) as [closestSphere|]; [|reflexivity].
  repeat (rewrite bind_rand; cbv beta zeta).
  assert (E0 : rand1 k1 = rand2 k2).
  { specialize (Hs 0%nat). rewrite !Nat.add_0_r in Hs. apply Hs. lia. }
  assert (E1 : rand1 (S k1) = rand2 (S k2)).
  { specialize (Hs 1%nat). rewrite !Nat.add_1_r in Hs. apply Hs. lia. }
  rewrite E0, E1.
  replace (2 * Z.to_nat (kMaxBounces - bounce))%nat
    with (2 + 2 * Z.to_nat (kMaxBounces - (bounce + 1)))%nat in * by lia.
  apply same_run_after.
  replace (S (S k1)) with (k1 + 2)%nat by lia.
  replace (S (S k2)) with (k2 + 2)%nat by lia.
  apply (same_run_bind _ _ _ _ 0 (2 * Z.to_nat (kMaxBounces - (bounce + 1))));
    [apply same_run_assert|].
  intros [] d Hd. replace d with 0%nat by lia. rewrite !Nat.add_0_r.
  rewrite !bind_pre_increment.
  destruct (bounce =? INT_MAX)%Z; [reflexivity|].
  eapply same_run_more;
    [|apply (same_run_bind _ _ _ _ (2 * Z.to_nat (kMaxBounces - (bounce + 1))) 0)].
  - lia.
  - apply IH; [lia|]. eapply same_draws_later; [|exact Hs]. lia.
  - intros radiance d' _. apply same_run_ret.
Qed.

(** A pixel: [kNumSamples] primary rays, each within 12 draws, then the
    three casts, which draw nothing. *)
Lemma Render_pixel_same_draws spheres camPos camRight orthoCamUp dx dy i j pixels k1 k2 :
  same_draws rand1 rand2 (12 * kNumSamples) k1 k2 ->
  same_run (12 * kNumSamples) k1 k2
    (Render_pixel cosf sinf rand1 NDEBUG spheres camPos camRight orthoCamUp
       dx dy i j pixels k1)
    (Render_pixel cosf sinf rand2 NDEBUG spheres camPos camRight orthoCamUp
       dx dy i j pixels k2).
Proof.
  intros Hs. unfold Render_pixel.
  eapply same_run_more;
    [|apply (same_run_bind _ _ _ _ (kNumSamples * 12) 0)].
  - lia.
  - apply for_loop_same_run; [|eapply same_draws_fewer; [|exact Hs]; lia].
    intros i' acc j1 j2 Hj.
    eapply same_run_more; [|apply (same_run_bind _ _ _ _ 12 0)]; [lia| |].
    + apply (TracePath_same_draws (S (Z.to_nat kMaxBounces)) _ _ 0 j1 j2);
        [unfold kMaxBounces; lia | exact Hj].
    + intros sample d _. apply same_run_ret.
  - intros colorSum d _.
    apply (same_run_bind _ _ _ _ 0 0); [apply same_run_BYTE_of_float|].
    intros r d1 _.
    apply (same_run_bind _ _ _ _ 0 0); [apply same_run_BYTE_of_float|].
    intros g d2 _.
    apply (same_run_bind _ _ _ _ 0 0); [apply same_run_BYTE_of_float|].
    intros b d3 _. apply same_run_ret.
Qed.

Lemma Render_same_draws (width height : Z) (k1 k2 : nat) :
  same_draws rand1 rand2
    (12 * kNumSamples * (Z.to_nat width * Z.to_nat height)) k1 k2 ->
  same_run (12 * kNumSamples * (Z.to_nat width * Z.to_nat height)) k1 k2
    (Render cosf sinf rand1 NDEBUG width height k1)
    (Render cosf sinf rand2 NDEBUG width height k2).
Proof.
  intros Hs. unfold Render.
  eapply same_run_more;
    [|apply (for_loop_same_run _ _ (Z.to_nat height * (12 * kNumSamples)))].
  - lia.
  - intros i px j1 j2 Hj.
    apply for_loop_same_run; [|exact Hj].
    intros j px' l1 l2 Hl. apply Render_pixel_same_draws. exact Hl.
  - eapply same_draws_fewer; [|exact Hs]. lia.
Qed.

End TwoRuns.

(** A pixel that some [SetPixel] call of the run writes holds the colour
    of the last such call, whatever the device context held before. *)
Lemma paint_covered (calls : list (Z * Z * Z)) :
  forall (hdc1 hdc2 : Surface) (p : Z * Z),
    hdc1 p = hdc2 p \/ In p (map fst calls) ->
    paint calls hdc1 p = paint calls hdc2 p.
Proof.
  unfold paint.
  induction calls as [|[[X Y] c] calls IH]; intros hdc1 hdc2 p H; cbn [fold_left].
  - destruct H as [H|[]]. exact H.
  - apply IH. cbn [map fst snd In] in *. unfold SetPixel.
    destruct ((fst p =? X)%Z && (snd p =? Y)%Z) eqn:E; [left; reflexivity|].
    destruct H as [H|[H|H]]; [left; exact H | | right; exact H].
    subst p. cbn [fst snd] in E. rewrite !Z.eqb_refl in E. discriminate E.
Qed.

Section Coverage.

Variable cosf sinf : float -> float.
Variable rand_values : nat -> Z.
Variable NDEBUG : bool.

(** Every pixel of the window is written by a run that returns. *)
Lemma Render_covers_window (width height : Z) (k k' : nat) (calls : list (Z * Z * Z)) :
  Render cosf sinf rand_values NDEBUG width height k = Ok (calls, k') ->
  forall X Y, (0 <= X < width)%Z -> (0 <= Y < height)%Z -> In (X, Y) (map fst calls).
Proof.
  unfold Render. intros Hrun.
  set (covered := fun (m n : nat) (px : list (Z * Z * Z)) =>
         (forall a b, (a < m)%nat -> (b < Z.to_nat height)%nat ->
                      In (Z.of_nat a, Z.of_nat b) (map fst px))
         /\ (forall b, (b < n)%nat -> In (Z.of_nat m, Z.of_nat b) (map fst px))).
  change 0%Z with (Z.of_nat 0) in Hrun at 1.
  apply (for_loop_invariant (fun m px (_ : nat) => covered m 0%nat px))
    with (m := 0%nat) in Hrun.
  - intros X Y HX HY. destruct Hrun as [Hc _]. cbn [Nat.add] in Hc.
    specialize (Hc (Z.to_nat X) (Z.to_nat Y)).
    rewrite !Z2Nat.id in Hc by lia. apply Hc; lia.
  - intros m px k1 px' k1' Hm Hcol.
    change 0%Z with (Z.of_nat 0) in Hcol.
    apply (for_loop_invariant (fun n px (_ : nat) => covered m n px))
      with (m := 0%nat) in Hcol.
    + cbn [Nat.add] in Hcol. destruct Hcol as [Ha Hb]. split; [|intros b Hb0; lia].
      intros a b Ha0 Hb0. destruct (Nat.eq_dec a m) as [->|Hne].
      * apply Hb. exact Hb0.
      * apply Ha; [lia | exact Hb0].
    + intros n px1 k2 px2 k2' [Ha Hb] Hpix.
      apply Render_pixel_spec in Hpix. destruct Hpix as (c & -> & _).
      unfold covered. rewrite map_app. cbn [map fst]. split.
      * intros a b Ha0 Hb0. apply in_or_app. left. apply Ha; assumption.
      * intros b Hb0. apply in_or_app. destruct (Nat.eq_dec b n) as [->|Hne].
        -- right. left. reflexivity.
        -- left. apply Hb. lia.
    + exact Hm.
  - unfold covered. split; intros; lia.
Qed.

End Coverage.

Section Reproducible.

Variable cosf sinf : float -> float.
Variable NDEBUG : bool.
Variable rand1 rand2 : nat -> Z.

(** C9.  Two runs of [Render] for the same window, build, [cosf] and
    [sinf] (the scene and the camera are fixed in [Render]), whose
    generators return the same values at their next
    [12 * kNumSamples * width * height] calls, end alike: both make the
    same [SetPixel] calls with the same colours in the same order after
    the same number of draws, or both stop alike, at the assertion or
    at a cast that C++ leaves undefined.  The
    generators may be at different positions and may differ in every
    later value, and the two device contexts may hold anything before:
    after runs that return, every pixel of the window has the same
    colour in both. *)
Theorem Render_deterministic (width height : Z) (k1 k2 : nat) :
  same_draws rand1 rand2
    (12 * kNumSamples * (Z.to_nat width * Z.to_nat height)) k1 k2 ->
  same_run (12 * kNumSamples * (Z.to_nat width * Z.to_nat height)) k1 k2
    (Render cosf sinf rand1 NDEBUG width height k1)
    (Render cosf sinf rand2 NDEBUG width height k2)
  /\ forall (calls1 calls2 : list (Z * Z * Z)) (k1' k2' : nat) (hdc1 hdc2 : Surface),
       Render cosf sinf rand1 NDEBUG width height k1 = Ok (calls1, k1') ->
       Render cosf sinf rand2 NDEBUG width height k2 = Ok (calls2, k2') ->
       calls1 = calls2
       /\ forall X Y, (0 <= X < width)%Z -> (0 <= Y < height)%Z ->
            paint calls1 hdc1 (X, Y) = paint calls2 hdc2 (X, Y).
Proof.
  intros Hs. pose proof (Render_same_draws cosf sinf NDEBUG rand1 rand2
                           width height k1 k2 Hs) as Hrun.
  split; [exact Hrun|].
  intros calls1 calls2 k1' k2' hdc1 hdc2 H1 H2.
  rewrite H1, H2 in Hrun. destruct Hrun as [<- _].
  split; [reflexivity|].
  intros X Y HX HY. apply paint_covered. right.
  apply (Render_covers_window cosf sinf rand1 NDEBUG width height k1 k1' calls1 H1);
    assumption.
Qed.

End Reproducible.

(** Two generators that agree on 24576 values only, the second one
    five calls further on, and a window of two pixels. *)
Lemma Render_deterministic_witness :
  same_run (12 * kNumSamples * (Z.to_nat 2 * Z.to_nat 1)) 0 5
    (Render cosf_at_zero sinf_at_zero rand_zero false 2 1 0)
    (Render cosf_at_zero sinf_at_zero
       (fun n => if (Z.of_nat n <? 24581)%Z then 0%Z else Z.of_nat n) false 2 1 5)
  /\ forall (calls1 calls2 : list (Z * Z * Z)) (k1' k2' : nat) (hdc1 hdc2 : Surface),
       Render cosf_at_zero sinf_at_zero rand_zero false 2 1 0 = Ok (calls1, k1') ->
       Render cosf_at_zero sinf_at_zero
         (fun n => if (Z.of_nat n <? 24581)%Z then 0%Z else Z.of_nat n) false 2 1 5
       = Ok (calls2, k2') ->
       calls1 = calls2
       /\ forall X Y, (0 <= X < 2)%Z -> (0 <= Y < 1)%Z ->
            paint calls1 hdc1 (X, Y) = paint calls2 hdc2 (X, Y).
Proof.
  apply (Render_deterministic cosf_at_zero sinf_at_zero false rand_zero
           (fun n => if (Z.of_nat n <? 24581)%Z then 0%Z else Z.of_nat n) 2 1 0 5).
  intros m Hm. unfold rand_zero.
  unfold kNumSamples in Hm.
  destruct (Z.ltb_spec (Z.of_nat (5 + m)) 24581) as [_|Hge]; [reflexivity | lia].
Defined.
